(** * fastify-prisma-notes: notes and authors API

    A shallow embedding of the route handlers ([routes/notes.ts],
    [routes/authors.ts]), the tag cleaner ([utils/tags.ts]) and the relational
    schema ([prisma/migrations/.../migration.sql]), with the properties of the
    design document stated and proved over them. *)

From Stdlib Require Import List String Ascii ZArith NArith Bool Lia.
From Stdlib Require Import Permutation Sorted.
Import ListNotations.
Open Scope string_scope.

Local Set Warnings "-register-all".

(** ** The fragment of JavaScript the handlers use *)

Module JS.

(** A request body as the framework hands it to a handler: a parsed JSON
    document, or [Undefined] when the request carried none. Numbers only
    matter through their truthiness, so the integers stand for them. *)
Inductive value : Type :=
| Undefined
| Null
| Bool (b : bool)
| Num (n : Z)
| Str (s : string)
| Arr (elems : list value)
| Obj (fields : list (string * value)).

(** What a [throw] carries. [TypeError] is raised by the engine (a method
    call on a value that has no such method, a property read on
    [undefined]); its message is the engine's and contains none of the
    handlers' own messages. [Error] is [new Error(message)].
    [PrismaClientKnownRequestError] is the store client's error with its
    [code]. *)
Inductive exn : Type :=
| TypeError
| Error (message : string)
| PrismaClientKnownRequestError (code : string).

Inductive result (A : Type) : Type :=
| Val (a : A)
| Throw (e : exn).
Arguments Val {A} a.
Arguments Throw {A} e.

Definition bind {A B} (r : result A) (k : A -> result B) : result B :=
  match r with
  | Val a => k a
  | Throw e => Throw e
  end.

(** [!!v] *)
Definition truthy (v : value) : bool :=
  match v with
  | Undefined | Null => false
  | Bool b => b
  | Num n => negb (n =? 0)%Z
  | Str s => negb (s =? "")
  | Arr _ | Obj _ => true
  end.

(** [v !== undefined] *)
Definition defined (v : value) : bool :=
  match v with
  | Undefined => false
  | _ => true
  end.

(** [Array.isArray(v)] *)
Definition isArray (v : value) : bool :=
  match v with
  | Arr _ => true
  | _ => false
  end.

(** The last binding of [k]: [JSON.parse] lets a later duplicate key win. *)
Fixpoint lookup (k : string) (fields : list (string * value)) : option value :=
  match fields with
  | [] => None
  | (k', v) :: rest =>
      match lookup k rest with
      | Some w => Some w
      | None => if k' =? k then Some v else None
      end
  end.

(** [v.k] for the keys the handlers read ([title], [content], [authorId],
    [tags], [name]): none of them is a property of a string, an array, a
    number or a boolean, so only an object can hold them; reading a
    property of [undefined] or [null] throws. *)
Definition prop (v : value) (k : string) : result value :=
  match v with
  | Undefined | Null => Throw TypeError
  | Obj fields =>
      match lookup k fields with
      | Some w => Val w
      | None => Val Undefined
      end
  | _ => Val Undefined
  end.

(** [Object.keys(v).length]: the own enumerable keys of an object are its
    distinct field names, those of an array or a string are its indices, a
    number or a boolean has none, and [undefined] and [null] throw. *)
Definition keysLength (v : value) : result nat :=
  match v with
  | Undefined | Null => Throw TypeError
  | Bool _ | Num _ => Val 0
  | Str s => Val (String.length s)
  | Arr elems => Val (List.length elems)
  | Obj fields => Val (List.length (nodup string_dec (map fst fields)))
  end.

(** *** Strings

    A string is a sequence of code units; the model covers the code units
    below 256 (Latin-1), on which [toLowerCase] and [trim] act as follows. *)

Definition charCode (c : ascii) : N := N_of_ascii c.

(** WhiteSpace and LineTerminator code units below 256: TAB, LF, VT, FF,
    CR, SP and NBSP. *)
Definition isWhiteSpace (c : ascii) : bool :=
  let n := charCode c in
  (((9 <=? n) && (n <=? 13)) || (n =? 32) || (n =? 160))%N.

(** A-Z, and the capital letters of Latin-1 (U+00C0-U+00DE without the
    multiplication sign U+00D7), have their small letter 32 above. *)
Definition lowerChar (c : ascii) : ascii :=
  let n := charCode c in
  if (((65 <=? n) && (n <=? 90)) ||
      ((192 <=? n) && (n <=? 222) && negb (n =? 215)))%N
  then ascii_of_N (n + 32)
  else c.

Fixpoint toLowerCase (s : string) : string :=
  match s with
  | EmptyString => EmptyString
  | String c rest => String (lowerChar c) (toLowerCase rest)
  end.

Fixpoint trimStart (s : string) : string :=
  match s with
  | EmptyString => EmptyString
  | String c rest => if isWhiteSpace c then trimStart rest else s
  end.

Fixpoint trimEnd (s : string) : string :=
  match s with
  | EmptyString => EmptyString
  | String c rest =>
      match trimEnd rest with
      | EmptyString => if isWhiteSpace c then EmptyString else String c EmptyString
      | kept => String c kept
      end
  end.

Definition trim (s : string) : string := trimEnd (trimStart s).

(** [s.startsWith(p)] *)
Fixpoint startsWith (p s : string) : bool :=
  match p, s with
  | EmptyString, _ => true
  | String a p', String b s' => Ascii.eqb a b && startsWith p' s'
  | String _ _, EmptyString => false
  end.

(** [s.includes(p)] *)
Fixpoint includes (p s : string) : bool :=
  startsWith p s ||
  match s with
  | EmptyString => false
  | String _ rest => includes p rest
  end.

(** [s.split(sep)] for a one-character separator. *)
Fixpoint split (sep : ascii) (s : string) : list string :=
  match s with
  | EmptyString => [EmptyString]
  | String c rest =>
      if Ascii.eqb c sep then EmptyString :: split sep rest
      else match split sep rest with
           | [] => [String c EmptyString]
           | piece :: pieces => String c piece :: pieces
           end
  end.

(** [v.trim()] on a value of unknown type: only a string has the method. *)
Definition trimOf (v : value) : result string :=
  match v with
  | Str s => Val (trim s)
  | _ => Throw TypeError
  end.

(** [v.toLowerCase()] likewise. *)
Definition toLowerCaseOf (v : value) : result string :=
  match v with
  | Str s => Val (toLowerCase s)
  | _ => Throw TypeError
  end.

(** [Array.from(new Set(xs))]: a [Set] keeps one copy of each element, in
    the order of first insertion. *)
Definition setAdd (seen : list string) (x : string) : list string :=
  if existsb (String.eqb x) seen then seen else seen ++ [x].

Definition arrayFromSet (xs : list string) : list string :=
  fold_left setAdd xs [].

(** [xs.map(f)] where [f] may throw: the first throw ends the loop. *)
Fixpoint mapM {A B} (f : A -> result B) (xs : list A) : result (list B) :=
  match xs with
  | [] => Val []
  | x :: rest =>
      bind (f x) (fun y => bind (mapM f rest) (fun ys => Val (y :: ys)))
  end.

End JS.

Import JS.

Declare Scope js_scope.
Delimit Scope js_scope with js.
Notation "x <- e ;; k" := (JS.bind e (fun x => k))
  (at level 61, e at next level, right associativity) : js_scope.

(** ** utils/tags.ts *)

(** [tags.map((t) => t.toLowerCase().trim())], then [Array.from(new Set(..))],
    then [.filter(Boolean)], on a well-typed [string[]]. *)
Definition cleanTags (tags : list string) : list string :=
  filter (fun t => truthy (Str t))
    (arrayFromSet (map (fun t => trim (toLowerCase t)) tags)).

(** The same function on what a JSON body can hold: an element that is not a
    string has no [toLowerCase] and the call throws. *)
Definition cleanTagsOf (tags : list value) : result (list string) :=
  (lowered <- mapM (fun t => (l <- toLowerCaseOf t ;; Val (trim l))%js) tags ;;
   Val (filter (fun t => truthy (Str t)) (arrayFromSet lowered)))%js.

(** ** The relational schema (prisma/migrations/.../migration.sql) *)

(** [CREATE TABLE "Author"] *)
Record Author : Type := mkAuthor {
  author_id : string;
  author_name : string
}.

(** [CREATE TABLE "Note"]; [content] is the one nullable column, and the two
    timestamps are readings of the clock. *)
Record Note : Type := mkNote {
  note_id : string;
  note_title : string;
  note_content : option string;
  note_authorId : string;
  note_createdAt : Z;
  note_updatedAt : Z
}.

(** [CREATE TABLE "Tag"] *)
Record Tag : Type := mkTag {
  tag_id : string;
  tag_name : string
}.

(** [CREATE TABLE "_NoteToTag"]: [A] is a note id and [B] a tag id. *)
Record NoteToTag : Type := mkNoteToTag {
  A : string;
  B : string
}.

(** The four tables, each with its rows in insertion order. *)
Record Database : Type := mkDatabase {
  authorTable : list Author;
  noteTable : list Note;
  tagTable : list Tag;
  noteToTagTable : list NoteToTag
}.

Definition emptyDatabase : Database := mkDatabase [] [] [] [].

(** The primary keys, the unique index and the foreign keys the migration
    declares. *)
Record constraints (d : Database) : Prop := mkConstraints {
  Author_pkey : NoDup (map author_id (authorTable d));
  Note_pkey : NoDup (map note_id (noteTable d));
  Tag_pkey : NoDup (map tag_id (tagTable d));
  NoteToTag_AB_pkey : NoDup (noteToTagTable d);
  Tag_name_key : NoDup (map tag_name (tagTable d));
  Note_authorId_fkey :
    forall n, In n (noteTable d) ->
              In (note_authorId n) (map author_id (authorTable d));
  NoteToTag_A_fkey :
    forall l, In l (noteToTagTable d) -> In (A l) (map note_id (noteTable d));
  NoteToTag_B_fkey :
    forall l, In l (noteToTagTable d) -> In (B l) (map tag_id (tagTable d))
}.

(** What the runtime supplies to one request: the clock reading, and the
    row ids the store client generates ([uuid 0], [uuid 1], ... in the order
    the rows are inserted). *)
Record Env : Type := mkEnv {
  now : Z;
  uuid : nat -> string
}.

(** A note as every note endpoint returns it, [include: { author: true,
    tags: true }]. *)
Record NoteWith : Type := mkNoteWith {
  note : Note;
  author : option Author;
  tags : list Tag
}.

(** The data of [prisma.note.update], type [NoteUpdateData]: each field is
    optional; [content] may be set to [null]; [tags], when present, is
    [{ set: [], connectOrCreate: names.map(...) }] and holds the names. *)
Record NoteUpdateData : Type := mkNoteUpdateData {
  data_title : option string;
  data_content : option (option string);
  data_tags : option (list string)
}.

(** ** Data access layer

    The handlers reach the tables through the generated Prisma client
    ([generated/prisma/client.ts]), which is absent; its calls are modelled
    from the design's data access layer over the tables of the migration. *)

(** Error codes of the store client: unique constraint, foreign key,
    record not found. *)
Definition P2002 : exn := PrismaClientKnownRequestError "P2002".
Definition P2003 : exn := PrismaClientKnownRequestError "P2003".
Definition P2025 : exn := PrismaClientKnownRequestError "P2025".

(** Equality of two rows of [_NoteToTag]. *)
Definition linkEqb (l1 l2 : NoteToTag) : bool :=
  (A l1 =? A l2) && (B l1 =? B l2).

(** Modelled from the spec: the generated Prisma client is absent, so
    [include: { tags: true }] is the design's join of a Note with its Tags:
    the rows of [Tag] reached from the note through [_NoteToTag]. *)
Definition tagsOf (d : Database) (noteId : string) : list Tag :=
  flat_map (fun l => filter (fun t => tag_id t =? B l) (tagTable d))
    (filter (fun l => A l =? noteId) (noteToTagTable d)).

(** Modelled from the spec: the generated Prisma client is absent, so
    [include: { author: true }] and the lookup by id are the row of [Author]
    with that primary key. *)
Definition authorOf (d : Database) (authorId : string) : option Author :=
  find (fun a => author_id a =? authorId) (authorTable d).

(** Modelled from the spec: the generated Prisma client is absent, so a
    Note joined with Author and Tags is the row with both joins. *)
Definition withRelations (d : Database) (n : Note) : NoteWith :=
  mkNoteWith n (authorOf d (note_authorId n)) (tagsOf d (note_id n)).

(** Modelled from the spec: the generated Prisma client is absent, so
    [orderBy] is a sort by the given order; rows that compare equal stay in
    insertion order. *)
Fixpoint insertBy {X} (le : X -> X -> bool) (x : X) (xs : list X) : list X :=
  match xs with
  | [] => [x]
  | y :: rest => if le x y then x :: xs else y :: insertBy le x rest
  end.

(** Modelled from the spec: see [insertBy]. *)
Fixpoint sortBy {X} (le : X -> X -> bool) (xs : list X) : list X :=
  match xs with
  | [] => []
  | x :: rest => insertBy le x (sortBy le rest)
  end.

(** Modelled from the spec: the generated Prisma client
    ([generated/prisma/client.ts]) is absent, so [prisma.author.findUnique]
    is the design's getAuthor: the Author matching id, or a not-found
    signal. *)
Definition getAuthor (id : string) (d : Database) : option Author :=
  authorOf d id.

(** Modelled from the spec: the generated Prisma client is absent, so
    [prisma.author.create] is the design's createAuthor: inserts a new
    Author row with a generated id and returns the stored row; the primary
    key of the migration refuses an id that is already there. *)
Definition createAuthor (env : Env) (name : string) (d : Database)
  : result (Author * Database) :=
  let a := mkAuthor (uuid env 0) name in
  if existsb (fun a' => author_id a' =? author_id a) (authorTable d)
  then Throw P2002
  else Val (a, mkDatabase (authorTable d ++ [a]) (noteTable d) (tagTable d)
                 (noteToTagTable d)).

(** Modelled from the spec: the generated Prisma client is absent, so
    [prisma.author.findMany] is the design's listAuthors: all Authors
    ordered by name ascending. *)
Definition listAuthors (d : Database) : list Author :=
  sortBy (fun a b => String.leb (author_name a) (author_name b)) (authorTable d).

(** Modelled from the spec: the generated Prisma client is absent, so
    [connectOrCreate] is the design's connect-or-create: for each name, in
    order, reuse the Tag row with that name or insert one (upsert by the
    unique key [name]). Returns the ids to connect and the new Tag table;
    [k] counts the ids generated so far. *)
Fixpoint connectOrCreate (env : Env) (k : nat) (names : list string)
  (table : list Tag) : result (list string * list Tag) :=
  match names with
  | [] => Val ([], table)
  | name :: rest =>
      match find (fun t => tag_name t =? name) table with
      | Some t =>
          (r <- connectOrCreate env k rest table ;;
           Val (tag_id t :: fst r, snd r))%js
      | None =>
          let id := uuid env k in
          if existsb (fun t => tag_id t =? id) table then Throw P2002
          else
            (r <- connectOrCreate env (S k) rest (table ++ [mkTag id name]) ;;
             Val (id :: fst r, snd r))%js
      end
  end.

(** Modelled from the spec: the generated Prisma client is absent, so
    connecting is the insert into [_NoteToTag] that keeps the pair unique:
    connecting a pair that is connected already changes nothing. *)
Definition connect (noteId : string) (links : list NoteToTag) (tagId : string)
  : list NoteToTag :=
  let l := mkNoteToTag noteId tagId in
  if existsb (linkEqb l) links then links else links ++ [l].

(** Modelled from the spec: the generated Prisma client is absent, so
    [prisma.note.create] is the design's createNote: for each name in
    tagNames, connects the Note to an existing Tag with that name or creates
    a new Tag with that name; inserts the Note row with the given authorId;
    returns the Note joined with its Author and its Tags; fails if authorId
    has no matching Author. The whole operation is atomic: a failure leaves
    the tables as they were. *)
Definition createNote (env : Env) (title : string) (content : option string)
  (authorId : string) (tagNames : list string) (d : Database)
  : result (NoteWith * Database) :=
  let n := mkNote (uuid env 0) title content authorId (now env) (now env) in
  if existsb (fun n' => note_id n' =? note_id n) (noteTable d) then Throw P2002
  else
    match authorOf d authorId with
    | None => Throw P2003
    | Some _ =>
        (r <- connectOrCreate env 1 tagNames (tagTable d) ;;
         let d' := mkDatabase (authorTable d) (noteTable d ++ [n]) (snd r)
                     (fold_left (connect (note_id n)) (fst r) (noteToTagTable d)) in
         Val (withRelations d' n, d'))%js
    end.

(** Modelled from the spec: the generated Prisma client is absent, so the
    [where] of the list endpoint is the design's filter: [{}] keeps every
    note, and
    [{ tags: { some: { name: { in: names } } } }] keeps the notes with at
    least one tag whose name is among [names]. *)
Definition matchesWhere (d : Database) (cond : option (list string)) (n : Note)
  : bool :=
  match cond with
  | None => true
  | Some names =>
      existsb (fun t => existsb (String.eqb (tag_name t)) names)
        (tagsOf d (note_id n))
  end.

(** Modelled from the spec: the generated Prisma client is absent, so
    [prisma.note.findMany] is the design's listNotes: if no filter, all
    Notes ordered by createdAt descending, each joined with Author and Tags;
    if a filter is given, only Notes having at least one Tag whose name is
    in the filter set, same ordering and join shape. *)
Definition listNotes (cond : option (list string)) (d : Database)
  : list NoteWith :=
  map (withRelations d)
    (sortBy (fun n m => (note_createdAt m <=? note_createdAt n)%Z)
       (filter (matchesWhere d cond) (noteTable d))).

(** Modelled from the spec: the generated Prisma client is absent, so
    [prisma.note.findUnique] is the design's getNote: the Note matching id
    joined with Author and Tags, or a not-found signal. *)
Definition getNote (id : string) (d : Database) : option NoteWith :=
  option_map (withRelations d)
    (find (fun n => note_id n =? id) (noteTable d)).

(** Modelled from the spec: the generated Prisma client is absent, so an
    updated row has the fields present in the data, a refreshed updatedAt,
    and its other columns as they were. *)
Definition applyUpdate (env : Env) (data : NoteUpdateData) (n : Note) : Note :=
  mkNote (note_id n)
    (match data_title data with Some t => t | None => note_title n end)
    (match data_content data with Some c => c | None => note_content n end)
    (note_authorId n)
    (note_createdAt n)
    (now env).

(** Modelled from the spec: the generated Prisma client is absent, so the
    [Note] table after an update [where: { id }] has the matching row
    updated. *)
Definition updatedRows (env : Env) (id : string) (data : NoteUpdateData)
  (rows : list Note) : list Note :=
  map (fun m => if note_id m =? id then applyUpdate env data m else m) rows.

(** Modelled from the spec: the generated Prisma client is absent, so
    [prisma.note.update] is the design's updateNote: applies only the fields
    present; if tagNames is present, the Note's existing tag associations
    are cleared and replaced by the connect-or-create set derived from
    tagNames; refreshes updatedAt; returns the updated Note joined with
    Author and Tags; fails with a not-found signal (P2025) if id has no
    matching Note. *)
Definition updateNote (env : Env) (id : string) (data : NoteUpdateData)
  (d : Database) : result (NoteWith * Database) :=
  match find (fun n => note_id n =? id) (noteTable d) with
  | None => Throw P2025
  | Some n =>
      let notes' := updatedRows env id data (noteTable d) in
      match data_tags data with
      | None =>
          let d' := mkDatabase (authorTable d) notes' (tagTable d)
                      (noteToTagTable d) in
          Val (withRelations d' (applyUpdate env data n), d')
      | Some names =>
          (r <- connectOrCreate env 0 names (tagTable d) ;;
           let cleared :=
             filter (fun l => negb (A l =? id)) (noteToTagTable d) in
           let d' := mkDatabase (authorTable d) notes' (snd r)
                       (fold_left (connect id) (fst r) cleared) in
           Val (withRelations d' (applyUpdate env data n), d'))%js
      end
  end.

(** ** Handlers: state, store calls and replies *)

(** One entry per call of the store client, in the order the calls happen. *)
Inductive dbcall : Type :=
| author_create
| author_findMany
| author_findUnique (id : string)
| note_create
| note_findMany
| note_findUnique (id : string)
| note_update (id : string).

Record World : Type := mkWorld {
  db : Database;
  calls : list dbcall
}.

(** The JSON a reply carries. *)
Inductive payload : Type :=
| ErrorBody (error message : string)
| AuthorBody (a : Author)
| AuthorsBody (authors : list Author)
| NoteBody (n : NoteWith)
| NotesBody (notes : list NoteWith).

(** [reply.code(code).send(body)] *)
Record response : Type := send {
  code : nat;
  sent : payload
}.

(** A computation inside a handler's [try] block: it reads and writes the
    store through the client, and ends in a value or a throw. *)
Definition M (X : Type) : Type := World -> result X * World.

Definition ret {X} (x : X) : M X := fun w => (Val x, w).

Definition bindM {X Y} (m : M X) (k : X -> M Y) : M Y :=
  fun w =>
    match m w with
    | (Val x, w') => k x w'
    | (Throw e, w') => (Throw e, w')
    end.

(** A step that does not touch the store. *)
Definition lift {X} (r : result X) : M X := fun w => (r, w).

(** A read through the store client. *)
Definition query {X} (c : dbcall) (q : Database -> X) : M X :=
  fun w => (Val (q (db w)), mkWorld (db w) (calls w ++ [c])).

(** A write through the store client; a failed write changes no table. *)
Definition command {X} (c : dbcall) (op : Database -> result (X * Database))
  : M X :=
  fun w =>
    match op (db w) with
    | Val (x, d') => (Val x, mkWorld d' (calls w ++ [c]))
    | Throw e => (Throw e, mkWorld (db w) (calls w ++ [c]))
    end.

(** A route handler: from the state before the request to the reply and the
    state after it. *)
Definition handler : Type := World -> response * World.

(** [try { body } catch (error) { return recover(error) }] *)
Definition tryCatch (body : M response) (recover : exn -> response) : handler :=
  fun w =>
    match body w with
    | (Val r, w') => (r, w')
    | (Throw e, w') => (recover e, w')
    end.

Declare Scope handler_scope.
Delimit Scope handler_scope with handler.
Notation "x <- e ;; k" := (bindM e (fun x => k))
  (at level 61, e at next level, right associativity) : handler_scope.

(** [!v || v.trim() === ""] *)
Definition blank (v : value) : result bool :=
  if negb (truthy v) then Val true
  else (t <- trimOf v ;; Val (t =? ""))%js.

(** [t || null] for a string [t] *)
Definition orNull (t : string) : option string :=
  if truthy (Str t) then Some t else None.

(** [cleanTags(tags)] on a body field: [tags.map] exists on an array only. *)
Definition cleanTagsV (tags : value) : result (list string) :=
  match tags with
  | Arr elems => cleanTagsOf elems
  | _ => Throw TypeError
  end.

(** [tags.split(",")] on a query parameter: a repeated parameter arrives as an
    array, which has no [split]. *)
Definition splitOf (tags : value) : result (list string) :=
  match tags with
  | Str s => Val (split "," s)
  | _ => Throw TypeError
  end.

Definition badRequest (message : string) : response :=
  send 400 (ErrorBody "Bad Request" message).

Definition notFound (message : string) : response :=
  send 404 (ErrorBody "Not Found" message).

Definition internalServerError (message : string) : response :=
  send 500 (ErrorBody "Internal Server Error" message).

(** *** PATCH helpers (routes/notes.ts) *)

Definition validateNotePatchRequest (body : value) : result unit :=
  (n <- keysLength body ;;
   if (n =? 0)%nat then Throw (Error "No fields to update provided") else
   title <- prop body "title" ;;
   emptyTitle <- (if defined title then blank title else Val false) ;;
   if emptyTitle then Throw (Error "Title cannot be empty") else
   tags <- prop body "tags" ;;
   if defined tags && negb (isArray tags)
   then Throw (Error "Tags must be an array")
   else Val tt)%js.

Definition buildNoteUpdateData (body : value) : result NoteUpdateData :=
  (title <- prop body "title" ;;
   dataTitle <- (if defined title
                 then (t <- trimOf title ;; Val (Some t))
                 else Val None) ;;
   content <- prop body "content" ;;
   dataContent <- (if defined content
                   then (t <- trimOf content ;; Val (Some (orNull t)))
                   else Val None) ;;
   tags <- prop body "tags" ;;
   dataTags <- (if defined tags
                then (cleanedTags <- cleanTagsV tags ;; Val (Some cleanedTags))
                else Val None) ;;
   Val (mkNoteUpdateData dataTitle dataContent dataTags))%js.

Definition validationErrors : list string :=
  ["No fields to update provided"; "Title cannot be empty";
   "Tags must be an array"].

(** [error instanceof Error &&
     validationErrors.some((msg) => error.message.includes(msg))], giving the
    message when it holds. *)
Definition validationMessage (error : exn) : option string :=
  match error with
  | Error message =>
      if existsb (fun msg => includes msg message) validationErrors
      then Some message else None
  | TypeError | PrismaClientKnownRequestError _ => None
  end.

(** [error.code === c] *)
Definition hasCode (error : exn) (c : string) : bool :=
  match error with
  | PrismaClientKnownRequestError c' => c' =? c
  | TypeError | Error _ => false
  end.

Section Routes.

(** [validate] of the uuid package, on a string. *)
Variable isValidUUID : string -> bool.

(** *** routes/notes.ts *)

(** POST /api/v1/notes *)
Definition postNote (env : Env) (body : value) : handler :=
  tryCatch
    (title <- lift (prop body "title") ;;
     content <- lift (prop body "content") ;;
     authorId <- lift (prop body "authorId") ;;
     tagsField <- lift (prop body "tags") ;;
     let tags := if defined tagsField then tagsField else Arr [] in
     noTitle <- lift (blank title) ;;
     if noTitle then ret (badRequest "Note title is required") else
     if defined tags && negb (isArray tags)
     then ret (badRequest "Tags must be an array") else
     noAuthorId <- lift (blank authorId) ;;
     if noAuthorId then ret (badRequest "authorId is required") else
     match authorId with
     | Str id =>
         if negb (isValidUUID id)
         then ret (badRequest "The provided authorId is not in valid UUID format")
         else
           author <- query (author_findUnique id) (getAuthor id) ;;
           match author with
           | None => ret (notFound "Author not found")
           | Some _ =>
               cleanedTags <- lift (cleanTagsV tags) ;;
               trimmed <- lift (trimOf title) ;;
               text <- lift (match content with
                             | Undefined | Null => Val None
                             | _ => (t <- trimOf content ;; Val (orNull t))%js
                             end) ;;
               n <- command note_create
                      (createNote env trimmed text id cleanedTags) ;;
               ret (send 201 (NoteBody n))
           end
     | _ => ret (badRequest "The provided authorId is not in valid UUID format")
     end)%handler
    (fun _ => internalServerError "Failed to create note").

(** GET /api/v1/notes, with [request.query.tags] *)
Definition getNotes (tags : value) : handler :=
  tryCatch
    (cond <- lift (if truthy tags
                   then (pieces <- splitOf tags ;;
                         Val (Some (map (fun tag => trim (toLowerCase tag))
                                      pieces)))%js
                   else Val None) ;;
     notes <- query note_findMany (listNotes cond) ;;
     ret (send 200 (NotesBody notes)))%handler
    (fun _ => internalServerError "Failed to fetch notes").

(** GET /api/v1/notes/:id *)
Definition getNoteById (id : string) : handler :=
  tryCatch
    (if negb (isValidUUID id) then ret (badRequest "Invalid UUID format") else
     found <- query (note_findUnique id) (getNote id) ;;
     match found with
     | None => ret (notFound "Note not found")
     | Some n => ret (send 200 (NoteBody n))
     end)%handler
    (fun _ => internalServerError "Failed to fetch note").

(** PATCH /api/v1/notes/:id *)
Definition patchNote (env : Env) (id : string) (body : value) : handler :=
  tryCatch
    (if negb (isValidUUID id) then ret (badRequest "Invalid UUID format") else
     _ <- lift (validateNotePatchRequest body) ;;
     data <- lift (buildNoteUpdateData body) ;;
     updatedNote <- command (note_update id) (updateNote env id data) ;;
     ret (send 200 (NoteBody updatedNote)))%handler
    (fun error =>
       match validationMessage error with
       | Some message => badRequest message
       | None =>
           if hasCode error "P2025" then notFound "Note not found"
           else internalServerError "Failed to update note"
       end).

(** *** routes/authors.ts *)

(** POST /api/v1/authors *)
Definition postAuthor (env : Env) (body : value) : handler :=
  tryCatch
    (name <- lift (prop body "name") ;;
     noName <- lift (blank name) ;;
     if noName then ret (badRequest "Author name is required") else
     trimmed <- lift (trimOf name) ;;
     a <- command author_create (createAuthor env trimmed) ;;
     ret (send 201 (AuthorBody a)))%handler
    (fun _ => internalServerError "Failed to create author").

(** GET /api/v1/authors *)
Definition getAuthors : handler :=
  tryCatch
    (authors <- query author_findMany listAuthors ;;
     ret (send 200 (AuthorsBody authors)))%handler
    (fun _ => internalServerError "Failed to fetch authors").

(** GET /api/v1/authors/:id *)
Definition getAuthorById (id : string) : handler :=
  tryCatch
    (if negb (isValidUUID id) then ret (badRequest "Invalid UUID format") else
     found <- query (author_findUnique id) (getAuthor id) ;;
     match found with
     | None => ret (notFound "Author not found")
     | Some a => ret (send 200 (AuthorBody a))
     end)%handler
    (fun _ => internalServerError "Failed to fetch author").

(** *** routes/index.ts: the routes of the API *)

Inductive request : Type :=
| POST_authors (body : value)
| GET_authors
| GET_authors_id (id : string)
| POST_notes (body : value)
| GET_notes (tags : value)
| GET_notes_id (id : string)
| PATCH_notes_id (id : string) (body : value).

Definition apiV1Routes (env : Env) (req : request) : handler :=
  match req with
  | POST_authors body => postAuthor env body
  | GET_authors => getAuthors
  | GET_authors_id id => getAuthorById id
  | POST_notes body => postNote env body
  | GET_notes tags => getNotes tags
  | GET_notes_id id => getNoteById id
  | PATCH_notes_id id body => patchNote env id body
  end.

(** The tables after one request. *)
Definition step (env : Env) (req : request) (d : Database) : Database :=
  db (snd (apiV1Routes env req (mkWorld d []))).

(** The tables after a sequence of requests, each with what the runtime
    supplied to it. *)
Definition run (reqs : list (Env * request)) (d : Database) : Database :=
  fold_left (fun d' er => step (fst er) (snd er) d') reqs d.

End Routes.

(** ** The design's vocabulary *)

(** The design's tag normalizer, in its own words: lowercase and trim each
    element, remove duplicates (the first occurrence decides the order),
    discard what is empty after trimming. [cleanTags] is compared with it. *)
Fixpoint removeDuplicates (xs : list string) : list string :=
  match xs with
  | [] => []
  | x :: rest => x :: filter (fun y => negb (y =? x)) (removeDuplicates rest)
  end.

Definition normalize (L : list string) : list string :=
  filter (fun s => negb (s =? ""))
    (removeDuplicates (map (fun s => trim (toLowerCase s)) L)).

Definition leadingWhiteSpace (s : string) : bool :=
  match s with
  | EmptyString => false
  | String c _ => isWhiteSpace c
  end.

Fixpoint trailingWhiteSpace (s : string) : bool :=
  match s with
  | EmptyString => false
  | String c EmptyString => isWhiteSpace c
  | String _ rest => trailingWhiteSpace rest
  end.

(** Ordered by createdAt descending. *)
Definition newestFirst (notes : list Note) : Prop :=
  StronglySorted (fun n m => (note_createdAt m <= note_createdAt n)%Z) notes.

(** A note has at least one tag whose name is among [names]. *)
Definition hasTagIn (d : Database) (names : list string) (n : Note) : Prop :=
  exists t, In t (tagsOf d (note_id n)) /\ In (tag_name t) names.

(** A name in normal form: lowercase, trimmed, non-empty. *)
Definition normalForm (s : string) : Prop :=
  toLowerCase s = s /\ trim s = s /\ s <> "".

(** What one request can do to the tables: nothing, or one of the three
    writes of the data access layer, with tag names that went through
    [cleanTags]. *)
Inductive write (env : Env) (d d' : Database) : Prop :=
| write_nothing :
    d' = d -> write env d d'
| write_author (name : string) (a : Author) :
    createAuthor env name d = Val (a, d') -> write env d d'
| write_note (title : string) (content : option string) (authorId : string)
    (T : list string) (nw : NoteWith) :
    createNote env title content authorId (cleanTags T) d = Val (nw, d') ->
    write env d d'
| write_update (id : string) (data : NoteUpdateData) (nw : NoteWith) :
    (forall names, data_tags data = Some names ->
                   exists T, names = cleanTags T) ->
    updateNote env id data d = Val (nw, d') ->
    write env d d'.

(** Every stored tag name is in normal form. *)
Definition tagsNormal (d : Database) : Prop :=
  forall t, In t (tagTable d) -> normalForm (tag_name t).

(** ** A validator and a store for the examples

    The theorems below hold for every validator; the examples instantiate
    them with the pattern of the uuid package: the 8-4-4-4-12 hexadecimal
    layout with a version digit 1-8 and a variant digit 8, 9, a or b, or the
    nil or the max UUID, letters in either case. *)

Definition isHexDigit (c : ascii) : bool :=
  let n := charCode c in
  (((48 <=? n) && (n <=? 57)) || ((65 <=? n) && (n <=? 70)) ||
   ((97 <=? n) && (n <=? 102)))%N.

Inductive charClass : Type := hex | dash | version | variant.

Definition inClass (k : charClass) (c : ascii) : bool :=
  let n := charCode c in
  match k with
  | hex => isHexDigit c
  | dash => (n =? 45)%N
  | version => ((49 <=? n) && (n <=? 56))%N
  | variant =>
      ((n =? 56) || (n =? 57) || (n =? 65) || (n =? 66) || (n =? 97) ||
       (n =? 98))%N
  end.

Fixpoint matchClasses (p : list charClass) (s : string) : bool :=
  match p, s with
  | [], EmptyString => true
  | k :: p', String c s' => inClass k c && matchClasses p' s'
  | _, _ => false
  end.

Definition uuidLayout : list charClass :=
  (repeat hex 8 ++ [dash] ++ repeat hex 4 ++ [dash] ++
   [version] ++ repeat hex 3 ++ [dash] ++
   [variant] ++ repeat hex 3 ++ [dash] ++ repeat hex 12)%list.

Definition uuidValidate (s : string) : bool :=
  matchClasses uuidLayout s
  || (s =? "00000000-0000-0000-0000-000000000000")
  || (toLowerCase s =? "ffffffff-ffff-ffff-ffff-ffffffffffff").

Definition adaId : string := "6f1c2a34-9b7d-4e21-8c55-0a1b2c3d4e5f".
Definition noteId : string := "0d9e8f7a-6b5c-4d3e-9f21-a0b1c2d3e4f5".
Definition otherNoteId : string := "3b2a1c0d-4e5f-4a6b-8c7d-9e0f1a2b3c4d".
Definition thirdNoteId : string := "c4d5e6f7-0819-4a2b-8c3d-4e5f60718293".
Definition strangerId : string := "7e6d5c4b-3a29-4187-b6a5-94f3e2d1c0b9".

(** The ids and the clock of the example requests: request [k] at time [k],
    its rows numbered within the request. *)
Definition exampleEnv (k : nat) : Env :=
  mkEnv (Z.of_nat k)
    (fun i =>
       match k, i with
       | 0, 0 => adaId
       | 1, 0 => noteId
       | 2, 0 => otherNoteId
       | 3, 0 => thirdNoteId
       | _, _ =>
           "row-" ++ String (ascii_of_nat (48 + k)) ("-" ++
             String (ascii_of_nat (48 + i)) "")
       end).

(** POST /authors, then three POST /notes: the store of the test suite after
    its note is created, plus a note tagged [other] and a note tagged
    [testing] and [other]. *)
Definition exampleRequests : list (Env * request) :=
  [ (exampleEnv 0, POST_authors (Obj [("name", Str "Test Author")]));
    (exampleEnv 1,
     POST_notes (Obj [("title", Str "Test Note");
                      ("content", Str "This is a test note content");
                      ("authorId", Str adaId);
                      ("tags", Arr [Str "testing"; Str "vitest"; Str "fastify"])]));
    (exampleEnv 2,
     POST_notes (Obj [("title", Str "Second");
                      ("authorId", Str adaId);
                      ("tags", Arr [Str "Other"])]));
    (exampleEnv 3,
     POST_notes (Obj [("title", Str "Third");
                      ("authorId", Str adaId);
                      ("tags", Arr [Str " Testing"; Str "other"])])) ].

Definition exampleDatabase : Database :=
  Eval vm_compute in run uuidValidate exampleRequests emptyDatabase.

Definition exampleWorld : World := mkWorld exampleDatabase [].

(** An environment whose generated ids are pairwise distinct and unlike any
    id of the example store: [id-], then one [x] per row generated. *)
Fixpoint unary (i : nat) : string :=
  match i with
  | 0 => EmptyString
  | S k => String "x" (unary k)
  end.

Definition unaryEnv : Env := mkEnv 9 (fun i => "id-" ++ unary i).

(** The example store after one more note, whose only tag holds a comma. *)
Definition commaWorld : World :=
  Eval vm_compute in
    snd (postNote uuidValidate (exampleEnv 4)
           (Obj [("title", Str "Comma"); ("authorId", Str adaId);
                 ("tags", Arr [Str "a,b"])])
           exampleWorld).

(** ** Strings *)

Ltac each_char c :=
  destruct c as [[] [] [] [] [] [] [] []]; vm_compute; reflexivity.

Lemma lowerChar_idempotent (c : ascii) : lowerChar (lowerChar c) = lowerChar c.
Proof. each_char c. Qed.

Lemma isWhiteSpace_lowerChar (c : ascii) :
  isWhiteSpace (lowerChar c) = isWhiteSpace c.
Proof. each_char c. Qed.

Lemma toLowerCase_idempotent (s : string) :
  toLowerCase (toLowerCase s) = toLowerCase s.
Proof.
  induction s as [|c s IH]; simpl; [reflexivity|].
  now rewrite lowerChar_idempotent, IH.
Qed.

Lemma toLowerCase_trimStart (s : string) :
  toLowerCase (trimStart s) = trimStart (toLowerCase s).
Proof.
  induction s as [|c s IH]; simpl; [reflexivity|].
  rewrite isWhiteSpace_lowerChar.
  destruct (isWhiteSpace c); [exact IH | reflexivity].
Qed.

Lemma toLowerCase_trimEnd (s : string) :
  toLowerCase (trimEnd s) = trimEnd (toLowerCase s).
Proof.
  induction s as [|c s IH]; simpl; [reflexivity|].
  rewrite <- IH, isWhiteSpace_lowerChar.
  destruct (trimEnd s) as [|a k]; simpl.
  - destruct (isWhiteSpace c); reflexivity.
  - reflexivity.
Qed.

Lemma toLowerCase_trim (s : string) :
  toLowerCase (trim s) = trim (toLowerCase s).
Proof.
  unfold trim. now rewrite toLowerCase_trimEnd, toLowerCase_trimStart.
Qed.

Lemma leadingWhiteSpace_trimStart (s : string) :
  leadingWhiteSpace (trimStart s) = false.
Proof.
  induction s as [|c s IH]; simpl; [reflexivity|].
  destruct (isWhiteSpace c) eqn:E; [exact IH | simpl; exact E].
Qed.

Lemma trimStart_fixed (s : string) :
  leadingWhiteSpace s = false -> trimStart s = s.
Proof.
  destruct s as [|c s]; simpl; [reflexivity|].
  now intros ->.
Qed.

Lemma leadingWhiteSpace_trimEnd (s : string) :
  leadingWhiteSpace s = false -> leadingWhiteSpace (trimEnd s) = false.
Proof.
  destruct s as [|c s]; simpl; [reflexivity|].
  intros E. destruct (trimEnd s); [rewrite E|]; simpl; auto.
Qed.

Lemma trimEnd_idempotent (s : string) : trimEnd (trimEnd s) = trimEnd s.
Proof.
  induction s as [|c s IH]; simpl; [reflexivity|].
  destruct (trimEnd s) as [|a k] eqn:E.
  - destruct (isWhiteSpace c) eqn:W; simpl; [reflexivity | now rewrite W].
  - change (trimEnd (String c (String a k))) with
      (match trimEnd (String a k) with
       | EmptyString =>
           if isWhiteSpace c then EmptyString else String c EmptyString
       | kept => String c kept
       end).
    now rewrite IH.
Qed.

Lemma trailingWhiteSpace_trimEnd (s : string) :
  trailingWhiteSpace (trimEnd s) = false.
Proof.
  induction s as [|c s IH]; simpl; [reflexivity|].
  destruct (trimEnd s) as [|a k] eqn:E.
  - destruct (isWhiteSpace c) eqn:W; simpl; [reflexivity | exact W].
  - exact IH.
Qed.

Lemma trim_idempotent (s : string) : trim (trim s) = trim s.
Proof.
  unfold trim.
  rewrite (trimStart_fixed (trimEnd (trimStart s))).
  - apply trimEnd_idempotent.
  - apply leadingWhiteSpace_trimEnd, leadingWhiteSpace_trimStart.
Qed.

Lemma trim_no_edge_whiteSpace (s : string) :
  leadingWhiteSpace (trim s) = false /\ trailingWhiteSpace (trim s) = false.
Proof.
  split.
  - apply leadingWhiteSpace_trimEnd, leadingWhiteSpace_trimStart.
  - apply trailingWhiteSpace_trimEnd.
Qed.

Lemma cleaned_normalForm (s : string) :
  trim (toLowerCase s) <> "" -> normalForm (trim (toLowerCase s)).
Proof.
  intros H. repeat split.
  - now rewrite toLowerCase_trim, toLowerCase_idempotent.
  - apply trim_idempotent.
  - exact H.
Qed.

(** ** Duplicate removal *)

Lemma removeDuplicates_In (xs : list string) (x : string) :
  In x (removeDuplicates xs) <-> In x xs.
Proof.
  induction xs as [|y xs IH]; simpl; [tauto|].
  rewrite filter_In, IH.
  destruct (String.eqb_spec x y) as [->|N]; simpl; intuition congruence.
Qed.

Lemma removeDuplicates_NoDup (xs : list string) : NoDup (removeDuplicates xs).
Proof.
  induction xs as [|y xs IH]; simpl; constructor.
  - rewrite filter_In, String.eqb_refl. simpl. intros [_ H]. discriminate.
  - now apply NoDup_filter.
Qed.

Lemma filter_filter_comm {X} (p q : X -> bool) (l : list X) :
  filter p (filter q l) = filter q (filter p l).
Proof.
  induction l as [|x l IH]; simpl; [reflexivity|].
  destruct (p x) eqn:P, (q x) eqn:Q; simpl; rewrite ?P, ?Q, IH; reflexivity.
Qed.

Lemma filter_all {X} (p : X -> bool) (l : list X) :
  (forall x, In x l -> p x = true) -> filter p l = l.
Proof.
  induction l as [|x l IH]; simpl; intros H; [reflexivity|].
  rewrite (H x (or_introl eq_refl)), IH; auto.
Qed.

Lemma removeDuplicates_filter (p : string -> bool) (xs : list string) :
  removeDuplicates (filter p xs) = filter p (removeDuplicates xs).
Proof.
  induction xs as [|y xs IH]; simpl; [reflexivity|].
  destruct (p y) eqn:P; simpl.
  - now rewrite IH, filter_filter_comm.
  - rewrite filter_filter_comm, <- IH. symmetry. apply filter_all.
    intros x Hx. apply removeDuplicates_In, filter_In in Hx.
    destruct (String.eqb_spec x y) as [->|]; [|reflexivity].
    destruct Hx; congruence.
Qed.

Lemma setAdd_fold (xs acc : list string) :
  fold_left setAdd xs acc =
  (acc ++ removeDuplicates
            (filter (fun x => negb (existsb (String.eqb x) acc)) xs))%list.
Proof.
  revert acc. induction xs as [|x xs IH]; intros acc; simpl.
  - now rewrite app_nil_r.
  - unfold setAdd at 2. destruct (existsb (String.eqb x) acc) eqn:E; simpl.
    + apply IH.
    + rewrite IH, <- app_assoc. simpl. do 2 f_equal.
      rewrite <- removeDuplicates_filter, filter_filter_comm.
      f_equal. clear IH. induction xs as [|z xs IHxs]; simpl; [reflexivity|].
      rewrite existsb_app. simpl. rewrite orb_false_r.
      destruct (String.eqb z x) eqn:ZX,
               (existsb (String.eqb z) acc) eqn:Z; simpl;
        rewrite ?Z, IHxs; reflexivity.
Qed.

Lemma arrayFromSet_removeDuplicates (xs : list string) :
  arrayFromSet xs = removeDuplicates xs.
Proof.
  unfold arrayFromSet. rewrite setAdd_fold. simpl.
  f_equal. apply filter_all. reflexivity.
Qed.

Lemma cleanTags_normalize (L : list string) : cleanTags L = normalize L.
Proof.
  unfold cleanTags, normalize. now rewrite arrayFromSet_removeDuplicates.
Qed.

Lemma cleanTags_NoDup (L : list string) : NoDup (cleanTags L).
Proof.
  rewrite cleanTags_normalize. apply NoDup_filter, removeDuplicates_NoDup.
Qed.

Lemma cleanTags_In (L : list string) (t : string) :
  In t (cleanTags L) <->
  t <> "" /\ exists raw, In raw L /\ t = trim (toLowerCase raw).
Proof.
  rewrite cleanTags_normalize. unfold normalize.
  rewrite filter_In, removeDuplicates_In, in_map_iff.
  destruct (String.eqb_spec t ""); simpl; split.
  - intros [_ H]; discriminate.
  - intros [H _]; contradiction.
  - intros [(raw & E & H) _]. split; [assumption|]. now exists raw.
  - intros [_ (raw & H & E)]. split; [|reflexivity]. now exists raw.
Qed.

Lemma cleanTags_normalForm (L : list string) (t : string) :
  In t (cleanTags L) -> normalForm t.
Proof.
  intros H. apply cleanTags_In in H. destruct H as [N (raw & _ & ->)].
  now apply cleaned_normalForm.
Qed.

(** C5. For every list of raw strings, [cleanTags] is the design's
    normalizer (lowercase and trim each element, keep the first occurrence of
    each, drop what is empty); so its output has no duplicates, and every
    entry is free of leading and trailing white space, is not empty, and is
    lowercase. *)
Theorem cleanTags_spec (L : list string) :
  cleanTags L = normalize L /\
  NoDup (cleanTags L) /\
  (forall t, In t (cleanTags L) ->
     trim t = t /\
     leadingWhiteSpace t = false /\ trailingWhiteSpace t = false /\
     t <> "" /\
     toLowerCase t = t).
Proof.
  split; [apply cleanTags_normalize|].
  split; [apply cleanTags_NoDup|].
  intros t H. destruct (cleanTags_normalForm L t H) as (Hl & Ht & Hn).
  repeat split; try assumption;
    rewrite <- Ht; apply trim_no_edge_whiteSpace.
Qed.

(** ** Validation before any store access *)

Arguments getAuthor : simpl never.
Arguments createAuthor : simpl never.
Arguments listAuthors : simpl never.
Arguments createNote : simpl never.
Arguments listNotes : simpl never.
Arguments getNote : simpl never.
Arguments updateNote : simpl never.
Arguments blank : simpl never.

Ltac run_handler :=
  unfold tryCatch, bindM, lift, query, command, ret; simpl.

Section Validation.

Variable isValidUUID : string -> bool.

Lemma validateNotePatchRequest_no_keys (body : value) :
  keysLength body = Val 0 ->
  validateNotePatchRequest body = Throw (Error "No fields to update provided").
Proof. intros H. unfold validateNotePatchRequest. now rewrite H. Qed.

(** C7. A get-by-id request, for a note or for an author, whose id is not a
    valid UUID is answered 400 (so neither 404 nor 500) and no call of the
    store client is made: the state after is the state before. The update by
    id is guarded by the same check. *)
Theorem invalid_id_rejected (env : Env) (id : string) (body : value) (w : World) :
  isValidUUID id = false ->
  getNoteById isValidUUID id w = (badRequest "Invalid UUID format", w) /\
  getAuthorById isValidUUID id w = (badRequest "Invalid UUID format", w) /\
  patchNote isValidUUID env id body w = (badRequest "Invalid UUID format", w) /\
  code (badRequest "Invalid UUID format") = 400.
Proof.
  intros H. unfold getNoteById, getAuthorById, patchNote, tryCatch.
  rewrite H. simpl. repeat split; reflexivity.
Qed.

(** C1, as the code has it. A PATCH whose body has no keys at all (the empty
    object) is answered 400 before any call of the store client: the state
    after is the state before, so the note, its fields and its tags are as
    they were. *)
Theorem patch_empty_body_rejected (env : Env) (id : string) (body : value)
  (w : World) :
  keysLength body = Val 0 ->
  let r := patchNote isValidUUID env id body w in
  code (fst r) = 400 /\
  snd r = w /\
  getNote id (db (snd r)) = getNote id (db w) /\
  (isValidUUID id = true ->
   fst r = badRequest "No fields to update provided").
Proof.
  intros H. unfold patchNote, tryCatch, bindM, lift.
  rewrite (validateNotePatchRequest_no_keys body H).
  destruct (isValidUUID id); simpl; repeat split; intros; congruence.
Qed.

Lemma prop_total (body : value) (k k' : string) (v : value) :
  prop body k = Val v -> exists v', prop body k' = Val v'.
Proof.
  destruct body; simpl; try discriminate; intros _; eauto.
  destruct (lookup k' fields); eauto.
Qed.

(** C6. The create handler checks, in this order: title presence, tags
    is-array, authorId presence, authorId UUID format, author existence. The
    first check that fails decides the reply (400, or 404 for the last),
    whatever the later fields hold, and the note insert does not run: no
    table changes, and the only call of the store client, if any, is the
    author lookup. *)
Theorem create_validation_order (env : Env)
  (body title authorId tagsField : value) (w : World) :
  prop body "title" = Val title ->
  prop body "authorId" = Val authorId ->
  prop body "tags" = Val tagsField ->
  let tags := if defined tagsField then tagsField else Arr [] in
  let r := postNote isValidUUID env body w in
  (blank title = Val true ->
   r = (badRequest "Note title is required", w)) /\
  (blank title = Val false -> isArray tags = false ->
   r = (badRequest "Tags must be an array", w)) /\
  (blank title = Val false -> isArray tags = true ->
   blank authorId = Val true ->
   r = (badRequest "authorId is required", w)) /\
  (blank title = Val false -> isArray tags = true ->
   blank authorId = Val false ->
   forall id, authorId = Str id -> isValidUUID id = false ->
   r = (badRequest "The provided authorId is not in valid UUID format", w)) /\
  (blank title = Val false -> isArray tags = true ->
   blank authorId = Val false ->
   forall id, authorId = Str id -> isValidUUID id = true ->
   getAuthor id (db w) = None ->
   r = (notFound "Author not found",
        mkWorld (db w) (calls w ++ [author_findUnique id]))).
Proof.
  intros Ht Ha Hg tags r.
  destruct (prop_total body "title" "content" title Ht) as [content Hc].
  assert (Hd : defined tags = true)
    by (subst tags; destruct tagsField; reflexivity).
  subst r. unfold postNote. run_handler. rewrite Ht, Hc, Ha, Hg.
  fold tags. rewrite Hd. simpl.
  repeat split.
  - intros ->. reflexivity.
  - intros -> ->. reflexivity.
  - intros -> -> ->. reflexivity.
  - intros -> -> Hb id -> Hv. rewrite Hb, Hv. reflexivity.
  - intros -> -> Hb id -> Hv Hn. rewrite Hb, Hv. simpl. rewrite Hn. reflexivity.
Qed.

(** C3, as the code has it. A create request whose authorId is a well-formed
    UUID with no matching Author never persists anything: no table changes,
    the reply is not 201, and the insert is not called. When the request
    passes the checks that precede the lookup (title present, tags an array
    or absent, authorId not blank), the reply is 404 and the one call of the
    store client is the author lookup. *)
Theorem create_unknown_author (env : Env) (body title tagsField : value)
  (id : string) (w : World) :
  prop body "title" = Val title ->
  prop body "tags" = Val tagsField ->
  prop body "authorId" = Val (Str id) ->
  isValidUUID id = true ->
  getAuthor id (db w) = None ->
  let r := postNote isValidUUID env body w in
  db (snd r) = db w /\
  code (fst r) <> 201 /\
  (calls (snd r) = calls w \/
   calls (snd r) = (calls w ++ [author_findUnique id])%list) /\
  (blank title = Val false ->
   defined tagsField && negb (isArray tagsField) = false ->
   blank (Str id) = Val false ->
   r = (notFound "Author not found",
        mkWorld (db w) (calls w ++ [author_findUnique id]))).
Proof.
  intros Ht Hg Ha Hv Hn r.
  destruct (prop_total body "title" "content" title Ht) as [content Hc].
  subst r. unfold postNote. run_handler. rewrite Ht, Hc, Ha, Hg.
  set (tags := if defined tagsField then tagsField else Arr []).
  assert (Hd : defined tags = true)
    by (subst tags; destruct tagsField; reflexivity).
  assert (Hi : isArray tags = negb (defined tagsField && negb (isArray tagsField)))
    by (subst tags; destruct tagsField; reflexivity).
  rewrite Hd. simpl.
  destruct (blank title) as [[|]|e]; simpl.
  - repeat split; auto; discriminate.
  - destruct (isArray tags) eqn:Ei; simpl.
    + destruct (blank (Str id)) as [[|]|e]; simpl;
        rewrite ?Hv; simpl; rewrite ?Hn; simpl;
        repeat split; auto; discriminate.
    + repeat split; auto; try discriminate.
      intros _ Hp. rewrite Hp in Hi. discriminate.
  - repeat split; auto; discriminate.
Qed.

End Validation.

Lemma invalid_id_rejected_witness :
  uuidValidate "not-a-uuid" = false /\
  getNoteById uuidValidate "not-a-uuid" exampleWorld =
    (badRequest "Invalid UUID format", exampleWorld).
Proof.
  split; [reflexivity|].
  apply (invalid_id_rejected uuidValidate (exampleEnv 4) "not-a-uuid"
           Undefined exampleWorld).
  reflexivity.
Defined.

Lemma patch_empty_body_rejected_witness :
  keysLength (Obj []) = Val 0 /\
  code (fst (patchNote uuidValidate (exampleEnv 4) noteId (Obj []) exampleWorld))
  = 400.
Proof.
  split; [reflexivity|].
  apply (patch_empty_body_rejected uuidValidate (exampleEnv 4) noteId (Obj [])
           exampleWorld).
  reflexivity.
Defined.

(** C1 as stated fails: the body [{"foo": 1}] holds none of [title],
    [content], [tags], yet it passes the validator, the store client is
    called, and the reply is 200. *)
Lemma patch_unknown_key_not_rejected :
  ~ (forall (env : Env) (id : string) (body : value) (w : World),
       prop body "title" = Val Undefined ->
       prop body "content" = Val Undefined ->
       prop body "tags" = Val Undefined ->
       code (fst (patchNote uuidValidate env id body w)) = 400 /\
       calls (snd (patchNote uuidValidate env id body w)) = calls w).
Proof.
  intros H.
  destruct (H (exampleEnv 4) noteId (Obj [("foo", Num 1)]) exampleWorld
              eq_refl eq_refl eq_refl) as [Hcode _].
  vm_compute in Hcode. discriminate.
Qed.

(** A blank title and a malformed authorId together: the title is reported. *)
Lemma create_validation_order_witness :
  postNote uuidValidate (exampleEnv 4)
    (Obj [("title", Str "  "); ("authorId", Str "nope")]) exampleWorld
  = (badRequest "Note title is required", exampleWorld).
Proof.
  exact (proj1 (create_validation_order uuidValidate (exampleEnv 4)
                  (Obj [("title", Str "  "); ("authorId", Str "nope")])
                  (Str "  ") (Str "nope") Undefined exampleWorld
                  eq_refl eq_refl eq_refl) eq_refl).
Defined.

Lemma create_unknown_author_witness :
  getAuthor strangerId exampleDatabase = None /\
  postNote uuidValidate (exampleEnv 4)
    (Obj [("title", Str "T"); ("authorId", Str strangerId)]) exampleWorld
  = (notFound "Author not found",
     mkWorld exampleDatabase [author_findUnique strangerId]).
Proof.
  split; [reflexivity|].
  apply (create_unknown_author uuidValidate (exampleEnv 4)
           (Obj [("title", Str "T"); ("authorId", Str strangerId)])
           (Str "T") Undefined strangerId exampleWorld
           eq_refl eq_refl eq_refl eq_refl eq_refl);
    reflexivity.
Defined.

(** C3 as stated fails: with a blank title the reply is 400, whatever the
    authorId. *)
Lemma unknown_author_blank_title :
  ~ (forall (env : Env) (body : value) (id : string) (w : World),
       prop body "authorId" = Val (Str id) ->
       uuidValidate id = true ->
       getAuthor id (db w) = None ->
       code (fst (postNote uuidValidate env body w)) = 404).
Proof.
  intros H.
  specialize (H (exampleEnv 4)
                (Obj [("title", Str ""); ("authorId", Str strangerId)])
                strangerId exampleWorld eq_refl eq_refl eq_refl).
  vm_compute in H. discriminate.
Qed.

(** ** Tables: keys, joins and connect-or-create *)

Lemma NoDup_map_injective {X Y} (f : X -> Y) (l : list X) (x y : X) :
  NoDup (map f l) -> In x l -> In y l -> f x = f y -> x = y.
Proof.
  induction l as [|z l IH]; simpl; [tauto|].
  intros N Hx Hy E. inversion N as [|? ? Hz N']; subst.
  destruct Hx as [->|Hx], Hy as [->|Hy]; auto.
  - exfalso. apply Hz. rewrite E. now apply in_map.
  - exfalso. apply Hz. rewrite <- E. now apply in_map.
Qed.

Lemma NoDup_snoc {X} (l : list X) (x : X) :
  NoDup l -> ~ In x l -> NoDup (l ++ [x]).
Proof.
  intros N H. apply NoDup_app; [assumption | repeat constructor; simpl; tauto |].
  intros a Ha [<-|[]]. contradiction.
Qed.

Lemma existsb_eqb_false {X} (f : X -> string) (l : list X) (k : string) :
  existsb (fun x => f x =? k) l = false -> ~ In k (map f l).
Proof.
  intros E H. apply in_map_iff in H. destruct H as (x & <- & Hx).
  assert (existsb (fun y => f y =? f x) l = true) as E'
    by (apply existsb_exists; exists x; split; [assumption | apply String.eqb_refl]).
  congruence.
Qed.

Lemma find_eqb_none {X} (f : X -> string) (l : list X) (k : string) :
  find (fun x => f x =? k) l = None -> ~ In k (map f l).
Proof.
  intros E H. apply in_map_iff in H. destruct H as (x & <- & Hx).
  pose proof (find_none _ _ E x Hx) as F. simpl in F.
  rewrite String.eqb_refl in F. discriminate.
Qed.

Lemma find_eqb_some {X} (f : X -> string) (l : list X) (k : string) (x : X) :
  find (fun x => f x =? k) l = Some x -> In x l /\ f x = k.
Proof.
  intros E. apply find_some in E. destruct E as [H E].
  split; [assumption | now apply String.eqb_eq].
Qed.

Lemma filter_none {X} (p : X -> bool) (l : list X) :
  (forall x, In x l -> p x = false) -> filter p l = [].
Proof.
  induction l as [|x l IH]; simpl; intros H; [reflexivity|].
  rewrite (H x (or_introl eq_refl)). apply IH. auto.
Qed.

Lemma filter_key_unique {X} (f : X -> string) (l : list X) (x : X) :
  NoDup (map f l) -> In x l -> filter (fun y => f y =? f x) l = [x].
Proof.
  induction l as [|z l IH]; simpl; [tauto|].
  intros N H. inversion N as [|? ? Hz N']; subst.
  destruct H as [->|H].
  - rewrite String.eqb_refl. f_equal.
    apply filter_none.
    intros y Hy. apply String.eqb_neq. intros E. apply Hz.
    rewrite <- E. now apply in_map.
  - destruct (String.eqb_spec (f z) (f x)) as [E|_]; [|auto].
    exfalso. apply Hz. rewrite E. now apply in_map.
Qed.

Lemma filter_key_absent {X} (f : X -> string) (l : list X) (k : string) :
  ~ In k (map f l) -> filter (fun y => f y =? k) l = [].
Proof.
  intros H. apply filter_none.
  intros y Hy. apply String.eqb_neq. intros E. apply H.
  rewrite <- E. now apply in_map.
Qed.

Lemma tag_eta (t : Tag) : mkTag (tag_id t) (tag_name t) = t.
Proof. now destruct t. Qed.

Lemma linkEqb_eq (l1 l2 : NoteToTag) : linkEqb l1 l2 = true <-> l1 = l2.
Proof.
  destruct l1 as [a1 b1], l2 as [a2 b2]. unfold linkEqb. simpl.
  rewrite andb_true_iff, !String.eqb_eq. split.
  - intros [-> ->]. reflexivity.
  - intros E. inversion E. auto.
Qed.

Lemma existsb_linkEqb (l : NoteToTag) (links : list NoteToTag) :
  existsb (linkEqb l) links = true <-> In l links.
Proof.
  rewrite existsb_exists. split.
  - intros (x & H & E). apply linkEqb_eq in E. now subst.
  - intros H. exists l. split; [assumption | now apply linkEqb_eq].
Qed.

(** What a successful connect-or-create leaves: the table grows at its end
    by rows named after the requested names, under ids the table did not
    hold; every requested name is matched with the id of the row that now
    carries it; and both keys of the table are kept. *)
Lemma connectOrCreate_spec (env : Env) (names : list string) :
  forall (k : nat) (table : list Tag) (ids : list string) (table' : list Tag),
    connectOrCreate env k names table = Val (ids, table') ->
    exists created,
      table' = (table ++ created)%list /\
      (forall t, In t created -> In (tag_name t) names) /\
      (forall t, In t created -> ~ In (tag_id t) (map tag_id table)) /\
      Forall2 (fun name id => In (mkTag id name) table') names ids /\
      (NoDup (map tag_id table) -> NoDup (map tag_id table')) /\
      (NoDup (map tag_name table) -> NoDup (map tag_name table')).
Proof.
  induction names as [|name rest IH]; intros k table ids table' H; simpl in H.
  - inversion H; subst. exists []. rewrite app_nil_r.
    repeat split; auto; contradiction.
  - destruct (find (fun t => tag_name t =? name) table) as [t|] eqn:F.
    + destruct (connectOrCreate env k rest table) as [[ids0 table0]|e] eqn:C;
        simpl in H; [|discriminate].
      inversion H; subst. clear H.
      destruct (IH _ _ _ _ C) as (created & -> & Hn & Hi & Hf & Hk & Hu).
      apply find_eqb_some in F. destruct F as [Ht <-].
      exists created. repeat split; auto.
      * intros t' H'. right. now apply Hn.
      * constructor; [|assumption].
        rewrite tag_eta. apply in_or_app. now left.
    + destruct (existsb (fun t => tag_id t =? uuid env k) table) eqn:E;
        [discriminate|].
      destruct (connectOrCreate env (S k) rest (table ++ [mkTag (uuid env k) name]))
        as [[ids0 table0]|e] eqn:C; simpl in H; [|discriminate].
      inversion H; subst. clear H.
      destruct (IH _ _ _ _ C) as (created & -> & Hn & Hi & Hf & Hk & Hu).
      apply existsb_eqb_false in E. apply find_eqb_none in F.
      exists (mkTag (uuid env k) name :: created).
      rewrite <- app_assoc. simpl. repeat split.
      * intros t [<-|H']; [now left | right; now apply Hn].
      * intros t [<-|H']; [exact E|].
        intros Hin. apply (Hi t H'). rewrite map_app. apply in_or_app. now left.
      * constructor.
        -- apply in_or_app. right. now left.
        -- rewrite <- app_assoc in Hf. exact Hf.
      * intros N. rewrite <- app_assoc in Hk. apply Hk.
        rewrite map_app. simpl. now apply NoDup_snoc.
      * intros N. rewrite <- app_assoc in Hu. apply Hu.
        rewrite map_app. simpl. now apply NoDup_snoc.
Qed.

Lemma connected_ids_In (table : list Tag) (names ids : list string) :
  Forall2 (fun name id => In (mkTag id name) table) names ids ->
  forall id, In id ids -> exists name, In name names /\ In (mkTag id name) table.
Proof.
  induction 1 as [|name id0 names ids H F IH]; simpl; [tauto|].
  intros id [<-|Hin].
  - exists name. auto.
  - destruct (IH id Hin) as (n & Hn & Ht). exists n. auto.
Qed.

Lemma connected_ids_NoDup (table : list Tag) (names ids : list string) :
  Forall2 (fun name id => In (mkTag id name) table) names ids ->
  NoDup (map tag_id table) -> NoDup names -> NoDup ids.
Proof.
  induction 1 as [|name id names ids H F IH]; intros Nt Nn; constructor.
  - intros Hin. inversion Nn as [|? ? Hname _]; subst.
    destruct (connected_ids_In _ _ _ F id Hin) as (n & Hn & Ht).
    assert (E : mkTag id name = mkTag id n)
      by (apply (NoDup_map_injective tag_id table); auto).
    inversion E; subst. contradiction.
  - inversion Nn; subst. auto.
Qed.

(** Joining the connected ids back to the table gives rows with exactly the
    requested names, in their order. *)
Lemma connected_join (table : list Tag) (noteId : string)
  (names ids : list string) :
  Forall2 (fun name id => In (mkTag id name) table) names ids ->
  NoDup (map tag_id table) ->
  map tag_name
    (flat_map (fun l => filter (fun t => tag_id t =? B l) table)
       (map (mkNoteToTag noteId) ids)) = names.
Proof.
  induction 1 as [|name id names ids H F IH]; intros N; simpl; [reflexivity|].
  rewrite map_app, (IH N).
  change id with (tag_id (mkTag id name)) at 1.
  rewrite (filter_key_unique tag_id table (mkTag id name) N H).
  reflexivity.
Qed.

Lemma connect_fold (noteId : string) (ids : list string) :
  forall links,
    (forall id, In id ids -> ~ In (mkNoteToTag noteId id) links) ->
    NoDup ids ->
    fold_left (connect noteId) ids links =
    (links ++ map (mkNoteToTag noteId) ids)%list.
Proof.
  induction ids as [|id ids IH]; intros links Hfresh N; simpl.
  - now rewrite app_nil_r.
  - inversion N as [|? ? Hid N']; subst.
    unfold connect at 2.
    destruct (existsb (linkEqb (mkNoteToTag noteId id)) links) eqn:E.
    + apply existsb_linkEqb in E. exfalso. apply (Hfresh id); simpl; auto.
    + rewrite IH; [now rewrite <- app_assoc | | assumption].
      intros id' Hin H. apply in_app_or in H. destruct H as [H|[H|[]]].
      * apply (Hfresh id'); simpl; auto.
      * inversion H; subst. contradiction.
Qed.

Lemma connect_fold_In (noteId : string) (ids : list string) :
  forall links l,
    In l (fold_left (connect noteId) ids links) <->
    In l links \/ (A l = noteId /\ In (B l) ids).
Proof.
  induction ids as [|id ids IH]; intros links l; simpl.
  - tauto.
  - rewrite IH. unfold connect.
    destruct (existsb (linkEqb (mkNoteToTag noteId id)) links) eqn:E.
    + apply existsb_linkEqb in E. split; [tauto|].
      intros [H|[Ha [Hb|Hb]]]; auto.
      left. destruct l; simpl in *; subst. exact E.
    + rewrite in_app_iff. simpl. split.
      * intros [[H|[<-|[]]]|H]; simpl; tauto.
      * intros [H|[Ha [Hb|Hb]]]; auto.
        left. right. left. destruct l; simpl in *; now subst.
Qed.

Lemma connect_fold_NoDup (noteId : string) (ids : list string) :
  forall links, NoDup links -> NoDup (fold_left (connect noteId) ids links).
Proof.
  induction ids as [|id ids IH]; intros links N; simpl; [assumption|].
  apply IH. unfold connect.
  destruct (existsb (linkEqb (mkNoteToTag noteId id)) links) eqn:E;
    [assumption|].
  apply NoDup_snoc; [assumption|].
  intros H. apply existsb_linkEqb in H. congruence.
Qed.

(** ** The three writes, unfolded *)

Lemma createAuthor_inv (env : Env) (name : string) (d d' : Database)
  (a : Author) :
  createAuthor env name d = Val (a, d') ->
  a = mkAuthor (uuid env 0) name /\
  ~ In (author_id a) (map author_id (authorTable d)) /\
  d' = mkDatabase (authorTable d ++ [a]) (noteTable d) (tagTable d)
         (noteToTagTable d).
Proof.
  unfold createAuthor. simpl.
  destruct (existsb _ (authorTable d)) eqn:E; [discriminate|].
  intros H. inversion H; subst. clear H.
  repeat split. now apply existsb_eqb_false in E.
Qed.

Lemma createNote_inv (env : Env) (title : string) (content : option string)
  (authorId : string) (names : list string) (d d' : Database) (nw : NoteWith) :
  createNote env title content authorId names d = Val (nw, d') ->
  let n := mkNote (uuid env 0) title content authorId (now env) (now env) in
  ~ In (note_id n) (map note_id (noteTable d)) /\
  In authorId (map author_id (authorTable d)) /\
  exists ids table',
    connectOrCreate env 1 names (tagTable d) = Val (ids, table') /\
    d' = mkDatabase (authorTable d) (noteTable d ++ [n]) table'
           (fold_left (connect (note_id n)) ids (noteToTagTable d)) /\
    nw = withRelations d' n.
Proof.
  unfold createNote. simpl.
  destruct (existsb _ (noteTable d)) eqn:E; [discriminate|].
  destruct (authorOf d authorId) as [a|] eqn:Ea; [|discriminate].
  destruct (connectOrCreate env 1 names (tagTable d)) as [[ids table']|e] eqn:C;
    simpl; [|discriminate].
  intros H. inversion H; subst. clear H.
  split; [now apply existsb_eqb_false in E|].
  split.
  - apply find_eqb_some in Ea. destruct Ea as [Hin <-]. now apply in_map.
  - exists ids, table'. auto.
Qed.

Lemma updateNote_inv (env : Env) (id : string) (data : NoteUpdateData)
  (d d' : Database) (nw : NoteWith) :
  updateNote env id data d = Val (nw, d') ->
  exists n,
    find (fun m => note_id m =? id) (noteTable d) = Some n /\
    nw = withRelations d' (applyUpdate env data n) /\
    authorTable d' = authorTable d /\
    noteTable d' = updatedRows env id data (noteTable d) /\
    match data_tags data with
    | None =>
        tagTable d' = tagTable d /\ noteToTagTable d' = noteToTagTable d
    | Some names =>
        exists ids,
          connectOrCreate env 0 names (tagTable d) = Val (ids, tagTable d') /\
          noteToTagTable d' =
            fold_left (connect id) ids
              (filter (fun l => negb (A l =? id)) (noteToTagTable d))
    end.
Proof.
  unfold updateNote.
  destruct (find _ (noteTable d)) as [n|] eqn:F; [|discriminate].
  destruct (data_tags data) as [names|].
  - destruct (connectOrCreate env 0 names (tagTable d)) as [[ids table']|e] eqn:C;
      simpl; [|discriminate].
    intros H. inversion H; subst. clear H.
    exists n. repeat split. exists ids. auto.
  - intros H. inversion H; subst. clear H.
    exists n. repeat split.
Qed.

Lemma updatedRows_ids (env : Env) (id : string) (data : NoteUpdateData)
  (rows : list Note) :
  map note_id (updatedRows env id data rows) = map note_id rows.
Proof.
  unfold updatedRows. rewrite map_map. apply map_ext.
  intros m. now destruct (note_id m =? id).
Qed.

Lemma updatedRows_In (env : Env) (id : string) (data : NoteUpdateData)
  (rows : list Note) (n' : Note) :
  In n' (updatedRows env id data rows) ->
  exists n, In n rows /\ note_id n' = note_id n /\
            note_authorId n' = note_authorId n /\
            note_createdAt n' = note_createdAt n.
Proof.
  unfold updatedRows. rewrite in_map_iff. intros (n & <- & H).
  exists n. now destruct (note_id n =? id).
Qed.

(** ** The constraints of the schema are kept by every write *)

Lemma emptyDatabase_constraints : constraints emptyDatabase.
Proof. constructor; simpl; try constructor; contradiction. Qed.

Lemma createAuthor_constraints (env : Env) (name : string) (d d' : Database)
  (a : Author) :
  constraints d -> createAuthor env name d = Val (a, d') -> constraints d'.
Proof.
  intros [Ka Kn Kt Kl Ku Fa Fl Ft] H.
  apply createAuthor_inv in H. destruct H as (_ & Hfresh & ->).
  constructor; simpl; auto.
  - rewrite map_app. simpl. now apply NoDup_snoc.
  - intros n Hn. rewrite map_app. apply in_or_app. left. now apply Fa.
Qed.

Lemma createNote_constraints (env : Env) (title : string)
  (content : option string) (authorId : string) (names : list string)
  (d d' : Database) (nw : NoteWith) :
  constraints d ->
  createNote env title content authorId names d = Val (nw, d') ->
  constraints d'.
Proof.
  intros [Ka Kn Kt Kl Ku Fa Fl Ft] H.
  apply createNote_inv in H. simpl in H.
  destruct H as (Hfresh & Hauthor & ids & table' & C & -> & _).
  destruct (connectOrCreate_spec _ _ _ _ _ _ C)
    as (created & E & _ & _ & Hf & Hk & Hu).
  constructor; simpl; auto.
  - rewrite map_app. simpl. now apply NoDup_snoc.
  - now apply connect_fold_NoDup.
  - intros n Hn. apply in_app_or in Hn. destruct Hn as [Hn|[<-|[]]]; auto.
  - intros l Hl. apply connect_fold_In in Hl. rewrite map_app.
    apply in_or_app. destruct Hl as [Hl|[-> _]]; [left; auto | right; simpl; auto].
  - intros l Hl. apply connect_fold_In in Hl. destruct Hl as [Hl|[_ Hb]].
    + rewrite E, map_app. apply in_or_app. left. auto.
    + destruct (connected_ids_In _ _ _ Hf _ Hb) as (name & _ & Hin).
      change (B l) with (tag_id (mkTag (B l) name)). now apply in_map.
Qed.

Lemma updateNote_constraints (env : Env) (id : string) (data : NoteUpdateData)
  (d d' : Database) (nw : NoteWith) :
  constraints d -> updateNote env id data d = Val (nw, d') -> constraints d'.
Proof.
  intros [Ka Kn Kt Kl Ku Fa Fl Ft] H.
  apply updateNote_inv in H.
  destruct H as (n & F & _ & Ea & En & Et).
  apply find_eqb_some in F. destruct F as [Hn Hid].
  assert (Fa' : forall m, In m (noteTable d') ->
                          In (note_authorId m) (map author_id (authorTable d'))).
  { intros m Hm. rewrite En in Hm. apply updatedRows_In in Hm.
    destruct Hm as (m0 & Hm0 & _ & -> & _). rewrite Ea. auto. }
  destruct (data_tags data) as [names|].
  - destruct Et as (ids & C & El).
    destruct (connectOrCreate_spec _ _ _ _ _ _ C)
      as (created & E & _ & _ & Hf & Hk & Hu).
    constructor; auto.
    + now rewrite Ea.
    + now rewrite En, updatedRows_ids.
    + rewrite El. apply connect_fold_NoDup. now apply NoDup_filter.
    + intros l Hl. rewrite El in Hl. apply connect_fold_In in Hl.
      rewrite En, updatedRows_ids. destruct Hl as [Hl|[-> _]].
      * apply filter_In in Hl. destruct Hl. auto.
      * rewrite <- Hid. now apply in_map.
    + intros l Hl. rewrite El in Hl. apply connect_fold_In in Hl.
      destruct Hl as [Hl|[_ Hb]].
      * apply filter_In in Hl. destruct Hl as [Hl _].
        rewrite E, map_app. apply in_or_app. left. auto.
      * destruct (connected_ids_In _ _ _ Hf _ Hb) as (name & _ & Hin).
        change (B l) with (tag_id (mkTag (B l) name)). now apply in_map.
  - destruct Et as [Et El].
    constructor; auto.
    + now rewrite Ea.
    + now rewrite En, updatedRows_ids.
    + now rewrite Et.
    + now rewrite El.
    + now rewrite Et.
    + intros l Hl. rewrite El in Hl. rewrite En, updatedRows_ids. auto.
    + intros l Hl. rewrite El in Hl. rewrite Et. auto.
Qed.

(** ** What a request does to the tables *)

Lemma mapM_strings (elems : list value) (lowered : list string) :
  mapM (fun t => (l <- toLowerCaseOf t ;; Val (trim l))%js) elems = Val lowered ->
  exists T, elems = map Str T /\
            lowered = map (fun t => trim (toLowerCase t)) T.
Proof.
  revert lowered. induction elems as [|v elems IH]; simpl; intros lowered H.
  - inversion H. now exists [].
  - destruct v; simpl in H; try discriminate.
    destruct (mapM _ elems) as [ys|e]; simpl in H; [|discriminate].
    inversion H; subst. destruct (IH ys eq_refl) as (T & -> & ->).
    now exists (s :: T).
Qed.

Lemma cleanTagsOf_strings (elems : list value) (names : list string) :
  cleanTagsOf elems = Val names ->
  exists T, elems = map Str T /\ names = cleanTags T.
Proof.
  unfold cleanTagsOf.
  destruct (mapM _ elems) as [lowered|e] eqn:E; simpl; [|discriminate].
  intros H. inversion H; subst.
  destruct (mapM_strings _ _ E) as (T & -> & ->). now exists T.
Qed.

Lemma cleanTagsOf_Str (T : list string) :
  cleanTagsOf (map Str T) = Val (cleanTags T).
Proof.
  unfold cleanTagsOf, cleanTags.
  assert (E : mapM (fun t => (l <- toLowerCaseOf t ;; Val (trim l))%js)
                (map Str T) = Val (map (fun t => trim (toLowerCase t)) T)).
  { induction T as [|t T IH]; simpl; [reflexivity|]. now rewrite IH. }
  now rewrite E.
Qed.

Lemma cleanTagsV_strings (tags : value) (names : list string) :
  cleanTagsV tags = Val names ->
  exists T, tags = Arr (map Str T) /\ names = cleanTags T.
Proof.
  destruct tags; simpl; try discriminate.
  intros H. apply cleanTagsOf_strings in H. destruct H as (T & -> & ->).
  now exists T.
Qed.

(** What [buildNoteUpdateData] puts in the update: a field of the body that
    is absent stays out of it, and the tags, when present, are cleaned. *)
Lemma buildNoteUpdateData_inv (body : value) (data : NoteUpdateData) :
  buildNoteUpdateData body = Val data ->
  exists title content tags,
    prop body "title" = Val title /\
    prop body "content" = Val content /\
    prop body "tags" = Val tags /\
    (defined title = false -> data_title data = None) /\
    (defined content = false -> data_content data = None) /\
    (if defined tags
     then exists T, tags = Arr (map Str T) /\ data_tags data = Some (cleanTags T)
     else data_tags data = None).
Proof.
  unfold buildNoteUpdateData.
  destruct (prop body "title") as [title|] eqn:Et; simpl; [|discriminate].
  destruct (if defined title then _ else _) as [dt|] eqn:Dt; simpl;
    [|discriminate].
  destruct (prop body "content") as [content|] eqn:Ec; simpl; [|discriminate].
  destruct (if defined content then _ else _) as [dc|] eqn:Dc; simpl;
    [|discriminate].
  destruct (prop body "tags") as [tags|] eqn:Eg; simpl; [|discriminate].
  destruct (if defined tags then _ else _) as [dg|] eqn:Dg; simpl;
    [|discriminate].
  intros H. inversion H; subst. clear H. simpl.
  exists title, content, tags. repeat split.
  - intros D. rewrite D in Dt. now inversion Dt.
  - intros D. rewrite D in Dc. now inversion Dc.
  - destruct (defined tags).
    + destruct (cleanTagsV tags) as [names|] eqn:C; simpl in Dg; [|discriminate].
      inversion Dg; subst.
      destruct (cleanTagsV_strings _ _ C) as (T & -> & ->). now exists T.
    + now inversion Dg.
Qed.

(** ** Replacing the tags of a note *)

Lemma flat_map_ext_In {X Y} (f g : X -> list Y) (l : list X) :
  (forall x, In x l -> f x = g x) -> flat_map f l = flat_map g l.
Proof.
  induction l as [|x l IH]; simpl; intros H; [reflexivity|].
  rewrite (H x (or_introl eq_refl)), IH; auto.
Qed.

Lemma filter_links_of (noteId other : string) (ids : list string) :
  filter (fun l => A l =? other) (map (mkNoteToTag noteId) ids) =
  if noteId =? other then map (mkNoteToTag noteId) ids else [].
Proof.
  induction ids as [|id ids IH]; simpl.
  - now destruct (noteId =? other).
  - rewrite IH. now destruct (noteId =? other).
Qed.

Lemma filter_cleared (id other : string) (links : list NoteToTag) :
  filter (fun l => A l =? other) (filter (fun l => negb (A l =? id)) links) =
  if id =? other then [] else filter (fun l => A l =? other) links.
Proof.
  induction links as [|l links IH]; simpl.
  - now destruct (id =? other).
  - destruct (String.eqb_spec (A l) id) as [E|N]; simpl.
    + rewrite IH, E. destruct (String.eqb_spec id other); [reflexivity|].
      reflexivity.
    + rewrite IH. destruct (String.eqb_spec (A l) other) as [E'|N'];
        destruct (String.eqb_spec id other) as [E''|N'']; try reflexivity.
      congruence.
Qed.

(** Rows added under new ids do not show in the joins of the old links. *)
Lemma join_extended (table created : list Tag) (links : list NoteToTag) :
  (forall l, In l links -> In (B l) (map tag_id table)) ->
  (forall t, In t created -> ~ In (tag_id t) (map tag_id table)) ->
  flat_map (fun l => filter (fun t => tag_id t =? B l) (table ++ created)) links =
  flat_map (fun l => filter (fun t => tag_id t =? B l) table) links.
Proof.
  intros Hb Hc. apply flat_map_ext_In. intros l Hl.
  rewrite filter_app.
  rewrite (filter_none _ created); [apply app_nil_r|].
  intros t Ht. apply String.eqb_neq. intros E.
  apply (Hc t Ht). rewrite E. now apply Hb.
Qed.

(** The update with tags, on the tables: the note is joined afterwards to
    rows carrying exactly the given names, in their order; no row of [Tag]
    is lost; and the tags of every other note are what they were. *)
Lemma updateNote_tags (env : Env) (id : string) (data : NoteUpdateData)
  (names : list string) (d d' : Database) (nw : NoteWith) :
  constraints d ->
  NoDup names ->
  data_tags data = Some names ->
  updateNote env id data d = Val (nw, d') ->
  map tag_name (tagsOf d' id) = names /\
  tags nw = tagsOf d' id /\
  (forall t, In t (tagTable d) -> In t (tagTable d')) /\
  (forall other, other <> id -> tagsOf d' other = tagsOf d other).
Proof.
  intros [Ka Kn Kt Kl Ku Fa Fl Ft] Nn Hd H.
  apply updateNote_inv in H. destruct H as (n & F & -> & _ & _ & Et).
  rewrite Hd in Et. destruct Et as (ids & C & El).
  destruct (connectOrCreate_spec _ _ _ _ _ _ C)
    as (created & E & _ & Hi & Hf & Hk & _).
  assert (Ni : NoDup ids) by (eapply connected_ids_NoDup; eauto).
  assert (El' : noteToTagTable d' =
                (filter (fun l => negb (A l =? id)) (noteToTagTable d) ++
                 map (mkNoteToTag id) ids)%list).
  { rewrite El. apply connect_fold; [|assumption].
    intros x _ Hin. apply filter_In in Hin. destruct Hin as [_ Hin].
    simpl in Hin. now rewrite String.eqb_refl in Hin. }
  repeat split.
  - unfold tagsOf. rewrite El', filter_app, filter_cleared, filter_links_of.
    rewrite String.eqb_refl. simpl. now apply connected_join; auto.
  - simpl. apply find_eqb_some in F. destruct F as [_ <-].
    now destruct n.
  - intros t Ht. rewrite E. apply in_or_app. now left.
  - intros other Ho. unfold tagsOf.
    rewrite El', filter_app, filter_cleared, filter_links_of.
    destruct (String.eqb_spec id other) as [Eo|_]; [congruence|].
    rewrite app_nil_r, E. apply join_extended; [|assumption].
    intros l Hl. apply filter_In in Hl. destruct Hl. auto.
Qed.

(** ** What an update leaves alone *)

Lemma updateNote_frame (env : Env) (id : string) (data : NoteUpdateData)
  (d d' : Database) (nw : NoteWith) :
  updateNote env id data d = Val (nw, d') ->
  forall i n, nth_error (noteTable d) i = Some n ->
    exists n', nth_error (noteTable d') i = Some n' /\
      note_id n' = note_id n /\
      note_authorId n' = note_authorId n /\
      note_createdAt n' = note_createdAt n /\
      (data_title data = None -> note_title n' = note_title n) /\
      (data_content data = None -> note_content n' = note_content n).
Proof.
  intros H i n Hn. apply updateNote_inv in H.
  destruct H as (_ & _ & _ & _ & En & _).
  rewrite En. unfold updatedRows. rewrite nth_error_map, Hn. simpl.
  eexists. split; [reflexivity|].
  destruct (note_id n =? id); simpl; repeat split; auto.
  - now intros ->.
  - now intros ->.
Qed.

Lemma write_frame (env : Env) (d d' : Database) :
  write env d d' ->
  forall i n, nth_error (noteTable d) i = Some n ->
    exists n', nth_error (noteTable d') i = Some n' /\
      note_id n' = note_id n /\
      note_authorId n' = note_authorId n /\
      note_createdAt n' = note_createdAt n.
Proof.
  intros [->|name a H|title content authorId T nw H|id data nw _ H] i n Hn.
  - exists n. auto.
  - apply createAuthor_inv in H. destruct H as (_ & _ & ->). exists n. auto.
  - apply createNote_inv in H. simpl in H.
    destruct H as (_ & _ & ids & table' & _ & -> & _). simpl.
    exists n. rewrite nth_error_app1; auto.
    apply nth_error_Some. congruence.
  - destruct (updateNote_frame _ _ _ _ _ _ H i n Hn)
      as (n' & H' & Hi & Ha & Hc & _).
    exists n'. auto.
Qed.

Section Steps.

Variable isValidUUID : string -> bool.

(** A reply 200 to a PATCH comes from a successful update with the data
    built from the body. *)
Lemma patchNote_200 (env : Env) (id : string) (body : value) (w : World) :
  code (fst (patchNote isValidUUID env id body w)) = 200 ->
  exists data nw d',
    buildNoteUpdateData body = Val data /\
    updateNote env id data (db w) = Val (nw, d') /\
    patchNote isValidUUID env id body w =
      (send 200 (NoteBody nw), mkWorld d' (calls w ++ [note_update id])).
Proof.
  unfold patchNote. run_handler.
  destruct (isValidUUID id); simpl; [|discriminate].
  destruct (validateNotePatchRequest body) as [[]|e] eqn:V; simpl.
  - destruct (buildNoteUpdateData body) as [data|e] eqn:Bd; simpl.
    + destruct (updateNote env id data (db w)) as [[nw d']|e] eqn:U; simpl.
      * intros _. exists data, nw, d'. auto.
      * destruct (validationMessage e); simpl; [discriminate|].
        destruct (hasCode e "P2025"); discriminate.
    + destruct (validationMessage e); simpl; [discriminate|].
      destruct (hasCode e "P2025"); discriminate.
  - destruct (validationMessage e); simpl; [discriminate|].
    destruct (hasCode e "P2025"); discriminate.
Qed.

Lemma step_write (env : Env) (req : request) (d : Database) :
  write env d (step isValidUUID env req d).
Proof.
  destruct req as [body| |id|body|tags|id|id body]; unfold step, apiV1Routes.
  - unfold postAuthor. run_handler.
    destruct (prop body "name") as [name|]; simpl; [|now apply write_nothing].
    destruct (blank name) as [[|]|]; simpl; try (now apply write_nothing).
    destruct (trimOf name) as [trimmed|]; simpl; [|now apply write_nothing].
    destruct (createAuthor env trimmed d) as [[a d']|] eqn:K; simpl;
      [|now apply write_nothing].
    eapply write_author; eassumption.
  - now apply write_nothing.
  - unfold getAuthorById. run_handler.
    destruct (isValidUUID id); simpl; [|now apply write_nothing].
    destruct (getAuthor id d); now apply write_nothing.
  - unfold postNote. run_handler.
    destruct (prop body "title") as [title|]; simpl;
      [|now apply write_nothing].
    destruct (prop body "content") as [content|]; simpl;
      [|now apply write_nothing].
    destruct (prop body "authorId") as [authorId|]; simpl;
      [|now apply write_nothing].
    destruct (prop body "tags") as [tagsField|]; simpl;
      [|now apply write_nothing].
    set (tags := if defined tagsField then tagsField else Arr []).
    destruct (blank title) as [[|]|]; simpl; try (now apply write_nothing).
    destruct (defined tags && negb (isArray tags)); simpl;
      [now apply write_nothing|].
    destruct (blank authorId) as [[|]|]; simpl; try (now apply write_nothing).
    destruct authorId as [| |?|?|aid|?|?]; simpl;
      try (now apply write_nothing).
    destruct (isValidUUID aid); simpl; [|now apply write_nothing].
    destruct (getAuthor aid d); simpl; [|now apply write_nothing].
    destruct (cleanTagsV tags) as [names|] eqn:C; simpl;
      [|now apply write_nothing].
    destruct (cleanTagsV_strings _ _ C) as (T & _ & ->).
    destruct (trimOf title) as [trimmed|]; simpl; [|now apply write_nothing].
    destruct (match content with
              | Undefined | Null => Val None
              | _ => (t <- trimOf content ;; Val (orNull t))%js
              end) as [text|]; simpl; [|now apply write_nothing].
    destruct (createNote env trimmed text aid (cleanTags T) d)
      as [[nw d']|] eqn:K;
      simpl; [|now apply write_nothing].
    eapply write_note; eassumption.
  - unfold getNotes. run_handler.
    destruct (if truthy tags then _ else _); now apply write_nothing.
  - unfold getNoteById. run_handler.
    destruct (isValidUUID id); simpl; [|now apply write_nothing].
    destruct (getNote id d); now apply write_nothing.
  - unfold patchNote. run_handler.
    destruct (isValidUUID id); simpl; [|now apply write_nothing].
    destruct (validateNotePatchRequest body) as [[]|]; simpl;
      [|now apply write_nothing].
    destruct (buildNoteUpdateData body) as [data|] eqn:Bd; simpl;
      [|now apply write_nothing].
    destruct (updateNote env id data d) as [[nw d']|] eqn:U; simpl;
      [|now apply write_nothing].
    eapply write_update; [|eassumption].
    intros names Hn.
    destruct (buildNoteUpdateData_inv _ _ Bd)
      as (title & content & tags & _ & _ & _ & _ & _ & Hg).
    destruct (defined tags).
    + destruct Hg as (T & _ & Hg). exists T. congruence.
    + congruence.
Qed.

Lemma write_constraints (env : Env) (d d' : Database) :
  write env d d' -> constraints d -> constraints d'.
Proof.
  intros [->|name a H|title content authorId T nw H|id data nw _ H] K.
  - exact K.
  - eapply createAuthor_constraints; eassumption.
  - eapply createNote_constraints; eassumption.
  - eapply updateNote_constraints; eassumption.
Qed.

Lemma connectOrCreate_tagsNormal (env : Env) (k : nat) (T : list string)
  (table table' : list Tag) (ids : list string) :
  connectOrCreate env k (cleanTags T) table = Val (ids, table') ->
  (forall t, In t table -> normalForm (tag_name t)) ->
  forall t, In t table' -> normalForm (tag_name t).
Proof.
  intros C N t Ht.
  destruct (connectOrCreate_spec _ _ _ _ _ _ C) as (created & -> & Hn & _).
  apply in_app_or in Ht. destruct Ht as [Ht|Ht]; [auto|].
  eapply cleanTags_normalForm. apply Hn. exact Ht.
Qed.

Lemma write_tagsNormal (env : Env) (d d' : Database) :
  write env d d' -> tagsNormal d -> tagsNormal d'.
Proof.
  intros [->|name a H|title content authorId T nw H|id data nw Hc H] K.
  - exact K.
  - apply createAuthor_inv in H. destruct H as (_ & _ & ->). exact K.
  - apply createNote_inv in H. simpl in H.
    destruct H as (_ & _ & ids & table' & C & -> & _).
    unfold tagsNormal. simpl. eapply connectOrCreate_tagsNormal; eassumption.
  - apply updateNote_inv in H.
    destruct H as (n & _ & _ & _ & _ & Et).
    destruct (data_tags data) as [names|].
    + destruct Et as (ids & C & _). destruct (Hc names eq_refl) as (T & ->).
      unfold tagsNormal. eapply connectOrCreate_tagsNormal; eassumption.
    + destruct Et as [Et _]. unfold tagsNormal. now rewrite Et.
Qed.

Lemma run_invariant (P : Database -> Prop) :
  (forall env d d', write env d d' -> P d -> P d') ->
  forall reqs d, P d -> P (run isValidUUID reqs d).
Proof.
  intros Hstep reqs. unfold run.
  induction reqs as [|[env req] reqs IH]; intros d H; simpl; [assumption|].
  apply IH. eapply Hstep; [apply step_write | assumption].
Qed.

Lemma run_constraints (reqs : list (Env * request)) (d : Database) :
  constraints d -> constraints (run isValidUUID reqs d).
Proof. apply run_invariant. exact write_constraints. Qed.

Lemma run_tagsNormal (reqs : list (Env * request)) (d : Database) :
  tagsNormal d -> tagsNormal (run isValidUUID reqs d).
Proof. apply run_invariant. exact write_tagsNormal. Qed.

(** C9. After any sequence of requests on the empty store, no two rows of
    [Tag] share a name, and every stored name is lowercase, trimmed and not
    empty. *)
Theorem tag_names_unique_and_normal (reqs : list (Env * request)) :
  let d := run isValidUUID reqs emptyDatabase in
  NoDup (map tag_name (tagTable d)) /\
  (forall i j t1 t2,
     nth_error (tagTable d) i = Some t1 ->
     nth_error (tagTable d) j = Some t2 ->
     i <> j -> tag_name t1 <> tag_name t2) /\
  (forall t, In t (tagTable d) ->
     toLowerCase (tag_name t) = tag_name t /\
     trim (tag_name t) = tag_name t /\
     tag_name t <> "").
Proof.
  intros d.
  assert (K : constraints d)
    by (apply run_constraints, emptyDatabase_constraints).
  assert (N : tagsNormal d)
    by (apply run_tagsNormal; intros t []).
  split; [apply (Tag_name_key d K)|]. split; [|exact N].
  intros i j t1 t2 H1 H2 Hij E. apply Hij.
  apply (proj1 (NoDup_nth_error (map tag_name (tagTable d))) (Tag_name_key d K)).
  - rewrite length_map. apply nth_error_Some. congruence.
  - rewrite !nth_error_map, H1, H2. simpl. now rewrite E.
Qed.

(** C2. A PATCH that supplies the tag list [T] and succeeds, on tables that
    satisfy the constraints of the schema, leaves the note joined to tags
    whose names are exactly [cleanTags T] (the reply shows the same join);
    what was associated before and is not in the cleaned list is gone; no
    row of [Tag] is deleted; and the tags of every other note are
    unchanged. *)
Theorem update_replaces_tags (env : Env) (id : string) (body : value)
  (T : list string) (w : World) :
  constraints (db w) ->
  prop body "tags" = Val (Arr (map Str T)) ->
  let r := patchNote isValidUUID env id body w in
  code (fst r) = 200 ->
  map tag_name (tagsOf (db (snd r)) id) = cleanTags T /\
  (exists nw, sent (fst r) = NoteBody nw /\
              map tag_name (tags nw) = cleanTags T) /\
  (forall name, In name (map tag_name (tagsOf (db w) id)) ->
                ~ In name (cleanTags T) ->
                ~ In name (map tag_name (tagsOf (db (snd r)) id))) /\
  (forall t, In t (tagTable (db w)) -> In t (tagTable (db (snd r)))) /\
  (forall other, other <> id ->
                 tagsOf (db (snd r)) other = tagsOf (db w) other).
Proof.
  intros K Hg r H200.
  destruct (patchNote_200 env id body w H200) as (data & nw & d' & Bd & U & E).
  subst r. rewrite E. simpl.
  destruct (buildNoteUpdateData_inv _ _ Bd)
    as (title & content & tags & _ & _ & Hg' & _ & _ & Hd).
  rewrite Hg in Hg'. inversion Hg'; subst tags. simpl in Hd.
  destruct Hd as (T' & ET & Hd).
  assert (ET' : T' = T).
  { clear -ET. revert T' ET. induction T as [|t T IH]; intros [|t' T'] E;
      simpl in E; try discriminate; [reflexivity|].
    inversion E. f_equal. apply IH. now f_equal. }
  subst T'.
  destruct (updateNote_tags env id data (cleanTags T) (db w) d' nw K
              (cleanTags_NoDup T) Hd U) as (Hn & Hw & Ht & Ho).
  repeat split; auto.
  - exists nw. split; [reflexivity|]. now rewrite Hw.
  - intros name _ Hout. now rewrite Hn.
Qed.

(** C8. A successful PATCH changes only what its body holds: without
    [title] every stored title is unchanged, without [content] every stored
    content, without [tags] the tag rows and every association. And no
    sequence of requests changes the id, the author or the creation time of
    a stored note. *)
Theorem partial_update_frame :
  (forall (env : Env) (id : string) (body : value) (w : World),
     let r := patchNote isValidUUID env id body w in
     code (fst r) = 200 ->
     (forall i n, nth_error (noteTable (db w)) i = Some n ->
        exists n', nth_error (noteTable (db (snd r))) i = Some n' /\
          (prop body "title" = Val Undefined ->
           note_title n' = note_title n) /\
          (prop body "content" = Val Undefined ->
           note_content n' = note_content n)) /\
     (prop body "tags" = Val Undefined ->
      tagTable (db (snd r)) = tagTable (db w) /\
      noteToTagTable (db (snd r)) = noteToTagTable (db w) /\
      forall noteId, tagsOf (db (snd r)) noteId = tagsOf (db w) noteId)) /\
  (forall (reqs : list (Env * request)) (d : Database) i n,
     nth_error (noteTable d) i = Some n ->
     exists n', nth_error (noteTable (run isValidUUID reqs d)) i = Some n' /\
       note_id n' = note_id n /\
       note_authorId n' = note_authorId n /\
       note_createdAt n' = note_createdAt n).
Proof.
  split.
  - intros env id body w r H200.
    destruct (patchNote_200 env id body w H200)
      as (data & nw & d' & Bd & U & E).
    subst r. rewrite E. simpl.
    destruct (buildNoteUpdateData_inv _ _ Bd)
      as (title & content & tags & Ht & Hc & Hg & Dt & Dc & Dg).
    split.
    + intros i n Hn.
      destruct (updateNote_frame _ _ _ _ _ _ U i n Hn)
        as (n' & Hn' & _ & _ & _ & Ft & Fc).
      exists n'. split; [assumption|]. split.
      * intros Hu. rewrite Hu in Ht. inversion Ht; subst. auto.
      * intros Hu. rewrite Hu in Hc. inversion Hc; subst. auto.
    + intros Hu. rewrite Hu in Hg. inversion Hg; subst. simpl in Dg.
      apply updateNote_inv in U. destruct U as (_ & _ & _ & _ & _ & Et).
      rewrite Dg in Et. destruct Et as [Et El].
      repeat split; auto. intros noteId. unfold tagsOf. now rewrite Et, El.
  - intros reqs. unfold run.
    induction reqs as [|[env req] reqs IH]; intros d i n Hn; simpl.
    + exists n. auto.
    + destruct (write_frame env d _ (step_write env req d) i n Hn)
        as (n1 & H1 & Hi & Ha & Hc).
      destruct (IH _ i n1 H1) as (n' & H' & Hi' & Ha' & Hc').
      exists n'. repeat split; congruence.
Qed.

End Steps.

(** ** Listing notes *)

Section Sorting.

Context {X : Type} (le : X -> X -> bool).
Hypothesis le_total : forall x y, le x y = false -> le y x = true.

Lemma insertBy_Permutation (x : X) (l : list X) :
  Permutation (x :: l) (insertBy le x l).
Proof.
  induction l as [|y l IH]; simpl; [reflexivity|].
  destruct (le x y); [reflexivity|].
  rewrite perm_swap. now constructor.
Qed.

Lemma sortBy_Permutation (l : list X) : Permutation l (sortBy le l).
Proof.
  induction l as [|x l IH]; simpl; [constructor|].
  rewrite <- insertBy_Permutation. now constructor.
Qed.

Lemma insertBy_Sorted (x : X) (l : list X) :
  Sorted (fun a b => le a b = true) l ->
  Sorted (fun a b => le a b = true) (insertBy le x l).
Proof.
  induction 1 as [|y l S IH H]; simpl; [repeat constructor|].
  destruct (le x y) eqn:E.
  - repeat constructor; assumption.
  - constructor; [assumption|].
    destruct l as [|z l]; simpl.
    + constructor. now apply le_total.
    + destruct (le x z); constructor.
      * now apply le_total.
      * now inversion H.
Qed.

Lemma sortBy_Sorted (l : list X) :
  Sorted (fun a b => le a b = true) (sortBy le l).
Proof.
  induction l as [|x l IH]; simpl; [constructor|].
  now apply insertBy_Sorted.
Qed.

End Sorting.

Lemma sortBy_newestFirst (notes : list Note) :
  newestFirst
    (sortBy (fun n m => (note_createdAt m <=? note_createdAt n)%Z) notes).
Proof.
  unfold newestFirst.
  set (le := fun n m => (note_createdAt m <=? note_createdAt n)%Z).
  assert (S : StronglySorted (fun n m => le n m = true) (sortBy le notes)).
  { apply Sorted_StronglySorted.
    - intros a b c. unfold le. rewrite !Z.leb_le. lia.
    - apply sortBy_Sorted. intros a b. unfold le.
      rewrite Z.leb_gt, Z.leb_le. lia. }
  induction S as [|n l S IH F]; constructor; [assumption|].
  eapply Forall_impl; [|exact F].
  intros m. unfold le. now rewrite Z.leb_le.
Qed.

Lemma matchesWhere_hasTagIn (d : Database) (names : list string) (n : Note) :
  matchesWhere d (Some names) n = true <-> hasTagIn d names n.
Proof.
  unfold hasTagIn. simpl. rewrite existsb_exists. split.
  - intros (t & Ht & E). exists t. split; [assumption|].
    apply existsb_exists in E. destruct E as (name & Hn & E).
    apply String.eqb_eq in E. now subst.
  - intros (t & Ht & Hn). exists t. split; [assumption|].
    apply existsb_exists. exists (tag_name t).
    split; [assumption | apply String.eqb_refl].
Qed.

(** C4. Listing changes no table. Without a filter (the query has no
    [tags], or an empty one) the reply holds every note, newest first, each
    with its author and its tags. With the query string [q], the filter is
    the trimmed, lowercased pieces of [q] split at commas, and the reply
    holds exactly the notes with at least one tag whose name is among them,
    in the same order and shape. *)
Theorem list_notes_filter (tags : value) (w : World) :
  let d := db w in
  let r := getNotes tags w in
  db (snd r) = d /\
  (truthy tags = false ->
   exists notes,
     fst r = send 200 (NotesBody (map (withRelations d) notes)) /\
     Permutation notes (noteTable d) /\
     newestFirst notes) /\
  (forall q, tags = Str q -> q <> "" ->
   let names := map (fun piece => trim (toLowerCase piece)) (split "," q) in
   exists notes,
     fst r = send 200 (NotesBody (map (withRelations d) notes)) /\
     Permutation notes (filter (matchesWhere d (Some names)) (noteTable d)) /\
     (forall n, In n notes <-> In n (noteTable d) /\ hasTagIn d names n) /\
     newestFirst notes).
Proof.
  intros d r. subst r d. unfold getNotes. run_handler.
  split; [|split].
  - destruct (truthy tags); [|reflexivity].
    destruct (splitOf tags); reflexivity.
  - intros ->. simpl. eexists. split; [reflexivity|]. split.
    + symmetry. rewrite <- sortBy_Permutation.
      rewrite filter_all; [reflexivity | reflexivity].
    + apply sortBy_newestFirst.
  - intros q -> Hq. simpl.
    destruct (String.eqb_spec q "") as [|_]; [contradiction|]. simpl.
    eexists. split; [reflexivity|]. split; [|split].
    + symmetry. apply sortBy_Permutation.
    + intros n. split.
      * intros H. apply (Permutation_in _ (Permutation_sym (sortBy_Permutation _ _)))
          in H.
        apply filter_In in H. destruct H as [H M].
        split; [assumption | now apply matchesWhere_hasTagIn].
      * intros [H M].
        apply (Permutation_in _ (sortBy_Permutation _ _)).
        apply filter_In. split; [assumption | now apply matchesWhere_hasTagIn].
    + apply sortBy_newestFirst.
Qed.

(** ** The examples of the design, run *)

Lemma exampleDatabase_constraints : constraints exampleDatabase.
Proof.
  exact (run_constraints uuidValidate exampleRequests emptyDatabase
           emptyDatabase_constraints).
Qed.

(** Filtering by [testing]: the note tagged [other] alone is left out, the
    note tagged [testing] and [other] is in, newest first. *)
Example list_notes_testing :
  exists notes,
    sent (fst (getNotes (Str "testing") exampleWorld)) = NotesBody notes /\
    map (fun nw => (note_id (note nw), map tag_name (tags nw))) notes =
      [ (thirdNoteId, ["testing"; "other"]);
        (noteId, ["testing"; "vitest"; "fastify"]) ].
Proof. eexists. split; reflexivity. Qed.

Lemma list_notes_filter_witness :
  exists notes,
    fst (getNotes (Str "testing") exampleWorld) =
      send 200 (NotesBody (map (withRelations exampleDatabase) notes)) /\
    (forall n, In n notes <->
               In n (noteTable exampleDatabase) /\
               hasTagIn exampleDatabase ["testing"] n).
Proof.
  destruct (proj2 (proj2 (list_notes_filter (Str "testing") exampleWorld))
              "testing" eq_refl ltac:(discriminate))
    as (notes & H & _ & Hin & _).
  exists notes. split; [exact H | exact Hin].
Defined.

(** From [testing], [vitest], [fastify] to [updated], [testing]. *)
Lemma update_replaces_tags_witness :
  map tag_name
    (tagsOf
       (db (snd (patchNote uuidValidate (exampleEnv 4) noteId
                   (Obj [("tags", Arr [Str "updated"; Str "testing"])])
                   exampleWorld)))
       noteId)
  = ["updated"; "testing"].
Proof.
  exact (proj1 (update_replaces_tags uuidValidate (exampleEnv 4) noteId
                  (Obj [("tags", Arr [Str "updated"; Str "testing"])])
                  ["updated"; "testing"] exampleWorld
                  exampleDatabase_constraints eq_refl eq_refl)).
Defined.

(** The rows of [vitest] and [fastify] are still in [Tag] afterwards. *)
Example update_keeps_tag_rows :
  map tag_name
    (tagTable
       (db (snd (patchNote uuidValidate (exampleEnv 4) noteId
                   (Obj [("tags", Arr [Str "updated"; Str "testing"])])
                   exampleWorld))))
  = ["testing"; "vitest"; "fastify"; "other"; "updated"].
Proof. reflexivity. Qed.

(** A PATCH of the content alone keeps the title. *)
Lemma partial_update_frame_witness :
  exists n',
    nth_error
      (noteTable
         (db (snd (patchNote uuidValidate (exampleEnv 4) noteId
                     (Obj [("content", Str "new")]) exampleWorld)))) 0
    = Some n' /\
    note_title n' = "Test Note".
Proof.
  destruct (proj1 (proj1 (partial_update_frame uuidValidate) (exampleEnv 4)
                     noteId (Obj [("content", Str "new")]) exampleWorld
                     eq_refl)
              0 _ eq_refl) as (n' & H & Ht & _).
  exists n'. split; [exact H | exact (Ht eq_refl)].
Defined.

(** [["Testing", " Vitest ", "testing"]] is stored as two tags. *)
Lemma cleanTags_spec_witness :
  cleanTags ["Testing"; " Vitest "; "testing"] = ["testing"; "vitest"] /\
  trim "vitest" = "vitest" /\ toLowerCase "vitest" = "vitest".
Proof.
  split; [reflexivity|].
  destruct (proj2 (proj2 (cleanTags_spec ["Testing"; " Vitest "; "testing"]))
              "vitest" (or_intror (or_introl eq_refl)))
    as (Ht & _ & _ & _ & Hl).
  split; [exact Ht | exact Hl].
Defined.

Lemma tag_names_unique_and_normal_witness :
  NoDup (map tag_name (tagTable exampleDatabase)).
Proof.
  exact (proj1 (tag_names_unique_and_normal uuidValidate exampleRequests)).
Defined.

(** ** Further properties of the tag cleaner (utils/tags.ts) *)

Lemma removeDuplicates_fixed (xs : list string) :
  NoDup xs -> removeDuplicates xs = xs.
Proof.
  induction 1 as [|x xs Hx N IH]; simpl; [reflexivity|].
  rewrite IH. f_equal. apply filter_all.
  intros y Hy. destruct (String.eqb_spec y x) as [->|]; [contradiction|].
  reflexivity.
Qed.

Lemma normalForm_fixed (t : string) :
  normalForm t -> trim (toLowerCase t) = t.
Proof. intros (Hl & Ht & _). now rewrite Hl. Qed.

Lemma cleanTags_fixed (L : list string) :
  NoDup L -> (forall t, In t L -> normalForm t) -> cleanTags L = L.
Proof.
  intros N H. rewrite cleanTags_normalize. unfold normalize.
  rewrite (map_ext_in _ (fun t => t)), map_id
    by (intros t Ht; now apply normalForm_fixed, H).
  rewrite removeDuplicates_fixed by assumption.
  apply filter_all. intros t Ht. destruct (H t Ht) as (_ & _ & Hn).
  now destruct (String.eqb_spec t "").
Qed.

(** X1. Cleaning a cleaned list changes nothing. *)
Theorem cleanTags_idempotent (L : list string) :
  cleanTags (cleanTags L) = cleanTags L.
Proof.
  apply cleanTags_fixed; [apply cleanTags_NoDup|].
  intros t. apply cleanTags_normalForm.
Qed.

Lemma trim_toLowerCase_absorbs (s : string) :
  trim (toLowerCase (toLowerCase s)) = trim (toLowerCase s) /\
  trim (toLowerCase (trim s)) = trim (toLowerCase s).
Proof.
  split.
  - now rewrite toLowerCase_idempotent.
  - now rewrite toLowerCase_trim, trim_idempotent.
Qed.

(** X2. The cleaner does not see the case of its input, nor the white space
    around each entry: raw lists that differ only in those clean to the
    same list. *)
Theorem cleanTags_case_and_space_insensitive (L : list string) :
  cleanTags (map toLowerCase L) = cleanTags L /\
  cleanTags (map trim L) = cleanTags L.
Proof.
  unfold cleanTags. rewrite !map_map. split; do 2 f_equal;
    apply map_ext; intros s; apply trim_toLowerCase_absorbs.
Qed.

Lemma removeDuplicates_length (xs : list string) :
  List.length (removeDuplicates xs) <= List.length xs.
Proof.
  induction xs as [|x xs IH]; simpl; [lia|].
  pose proof (filter_length_le (fun y => negb (y =? x)) (removeDuplicates xs)).
  lia.
Qed.

(** X3. The cleaner never invents entries: the output is no longer than the
    input, every output entry is the cleaned form of some input entry, and
    an input whose entries are all blank (or an empty input) cleans to the
    empty list; conversely an entry that is not blank survives in cleaned
    form. *)
Theorem cleanTags_bounds (L : list string) :
  List.length (cleanTags L) <= List.length L /\
  (forall t, In t (cleanTags L) ->
             exists raw, In raw L /\ t = trim (toLowerCase raw)) /\
  ((forall raw, In raw L -> trim raw = "") -> cleanTags L = []) /\
  (forall raw, In raw L -> trim raw <> "" ->
               In (trim (toLowerCase raw)) (cleanTags L)).
Proof.
  repeat split.
  - rewrite cleanTags_normalize. unfold normalize.
    etransitivity; [apply filter_length_le|].
    etransitivity; [apply removeDuplicates_length|].
    now rewrite length_map.
  - intros t H. now apply cleanTags_In in H.
  - intros H. destruct (cleanTags L) as [|t rest] eqn:E; [reflexivity|].
    assert (Ht : In t (cleanTags L)) by (rewrite E; now left).
    apply cleanTags_In in Ht. destruct Ht as (Hn & raw & Hr & ->).
    exfalso. apply Hn. now rewrite <- toLowerCase_trim, (H raw Hr).
  - intros raw Hr Hn. apply cleanTags_In. split; [|now exists raw].
    intros E. apply Hn.
    rewrite <- toLowerCase_trim in E.
    destruct (trim raw); [reflexivity | discriminate].
Qed.

(** ** Further properties of the handlers (routes/notes.ts, routes/authors.ts) *)

Section Replies.

Variable isValidUUID : string -> bool.

Ltac leaf :=
  solve [simpl; repeat split; auto 10; try (intros; congruence)].

(** X4. Every reply carries one of the five status codes; a reply other than
    200 and 201 leaves every table as it was; and the four GET routes never
    write, whatever they reply. *)
Theorem error_replies_write_nothing (env : Env) (req : request) (w : World) :
  let r := apiV1Routes isValidUUID env req w in
  In (code (fst r)) [200; 201; 400; 404; 500] /\
  (code (fst r) <> 200 -> code (fst r) <> 201 -> db (snd r) = db w) /\
  match req with
  | GET_authors | GET_authors_id _ | GET_notes _ | GET_notes_id _ =>
      db (snd r) = db w /\ code (fst r) <> 201
  | _ => True
  end.
Proof.
  destruct req as [body| |id|body|tags|id|id body]; unfold apiV1Routes.
  - unfold postAuthor. run_handler.
    destruct (prop body "name") as [name|]; simpl; [|leaf].
    destruct (blank name) as [[|]|]; simpl; try leaf.
    destruct (trimOf name) as [trimmed|]; simpl; [|leaf].
    destruct (createAuthor env trimmed (db w)) as [[a d']|]; leaf.
  - leaf.
  - unfold getAuthorById. run_handler.
    destruct (isValidUUID id); simpl; [|leaf].
    destruct (getAuthor id (db w)); leaf.
  - unfold postNote. run_handler.
    destruct (prop body "title") as [title|]; simpl; [|leaf].
    destruct (prop body "content") as [content|]; simpl; [|leaf].
    destruct (prop body "authorId") as [authorId|]; simpl; [|leaf].
    destruct (prop body "tags") as [tagsField|]; simpl; [|leaf].
    set (tags := if defined tagsField then tagsField else Arr []).
    destruct (blank title) as [[|]|]; simpl; try leaf.
    destruct (defined tags && negb (isArray tags)); simpl; [leaf|].
    destruct (blank authorId) as [[|]|]; simpl; try leaf.
    destruct authorId as [| |?|?|aid|?|?]; simpl; try leaf.
    destruct (isValidUUID aid); simpl; [|leaf].
    destruct (getAuthor aid (db w)); simpl; [|leaf].
    destruct (cleanTagsV tags) as [names|]; simpl; [|leaf].
    destruct (trimOf title) as [trimmed|]; simpl; [|leaf].
    destruct (match content with
              | Undefined | Null => Val None
              | _ => (t <- trimOf content ;; Val (orNull t))%js
              end) as [text|]; simpl; [|leaf].
    destruct (createNote env trimmed text aid names (db w)) as [[nw d']|]; leaf.
  - unfold getNotes. run_handler.
    destruct (if truthy tags then _ else _); leaf.
  - unfold getNoteById. run_handler.
    destruct (isValidUUID id); simpl; [|leaf].
    destruct (getNote id (db w)); leaf.
  - unfold patchNote. run_handler.
    destruct (isValidUUID id); simpl; [|leaf].
    destruct (validateNotePatchRequest body) as [[]|e]; simpl.
    + destruct (buildNoteUpdateData body) as [data|e]; simpl.
      * destruct (updateNote env id data (db w)) as [[nw d']|e]; simpl; [leaf|].
        destruct (validationMessage e); [leaf|].
        destruct (hasCode e "P2025"); leaf.
      * destruct (validationMessage e); [leaf|].
        destruct (hasCode e "P2025"); leaf.
    + destruct (validationMessage e); [leaf|].
      destruct (hasCode e "P2025"); leaf.
Qed.

(** X5. A request that carries no body at all (or the JSON [null]) is answered
    500 by each handler that reads its body, not 400, and no store call is
    made. *)
Theorem missing_body_is_500 (env : Env) (id : string) (body : value)
  (w : World) :
  body = Undefined \/ body = Null ->
  postAuthor env body w =
    (internalServerError "Failed to create author", w) /\
  postNote isValidUUID env body w =
    (internalServerError "Failed to create note", w) /\
  (isValidUUID id = true ->
   patchNote isValidUUID env id body w =
     (internalServerError "Failed to update note", w)).
Proof.
  intros [-> | ->]; repeat split; try reflexivity;
    intros H; unfold patchNote; run_handler; now rewrite H.
Qed.

(** X6. The validator of PATCH, past the empty-body check: a [title] that is
    present but blank is reported first, then [tags] that is present but not
    an array; both as 400 with the validator's message and before any store
    call. *)
Theorem patch_field_validation (env : Env) (id : string)
  (body title tags : value) (n : nat) (w : World) :
  isValidUUID id = true ->
  keysLength body = Val (S n) ->
  prop body "title" = Val title ->
  prop body "tags" = Val tags ->
  let r := patchNote isValidUUID env id body w in
  (defined title = true -> blank title = Val true ->
   r = (badRequest "Title cannot be empty", w)) /\
  ((defined title = false \/ blank title = Val false) ->
   defined tags = true -> isArray tags = false ->
   r = (badRequest "Tags must be an array", w)).
Proof.
  intros Hv Hk Ht Hg r. subst r. unfold patchNote. run_handler.
  rewrite Hv. simpl. unfold validateNotePatchRequest.
  rewrite Hk, Ht, Hg. simpl. split.
  - intros -> ->. reflexivity.
  - intros [Hd|Hb] -> ->.
    + rewrite Hd. reflexivity.
    + rewrite Hb. destruct (defined title); reflexivity.
Qed.

(** X7. A PATCH whose body passes the validator, on an id that no note carries:
    the store client's record-not-found error becomes 404, the tables are
    unchanged, and the update was the one store call. *)
Theorem patch_unknown_note_is_404 (env : Env) (id : string) (body : value)
  (data : NoteUpdateData) (w : World) :
  isValidUUID id = true ->
  validateNotePatchRequest body = Val tt ->
  buildNoteUpdateData body = Val data ->
  getNote id (db w) = None ->
  patchNote isValidUUID env id body w =
    (notFound "Note not found", mkWorld (db w) (calls w ++ [note_update id])).
Proof.
  intros Hv Hval Hb Hn. unfold patchNote. run_handler.
  rewrite Hv. simpl. rewrite Hval. simpl. rewrite Hb. simpl.
  unfold updateNote. unfold getNote in Hn.
  destruct (find (fun n => note_id n =? id) (noteTable (db w)));
    [discriminate | reflexivity].
Qed.



End Replies.

(** ** Writes and what can be read back *)

Lemma existsb_eqb_absent {X} (f : X -> string) (l : list X) (k : string) :
  ~ In k (map f l) -> existsb (fun x => f x =? k) l = false.
Proof.
  intros H. destruct (existsb (fun x => f x =? k) l) eqn:E; [|reflexivity].
  apply existsb_exists in E. destruct E as (x & Hx & E).
  apply String.eqb_eq in E. exfalso. apply H. rewrite <- E. now apply in_map.
Qed.

Lemma find_snoc_new {X} (f : X -> string) (l : list X) (x : X) :
  ~ In (f x) (map f l) ->
  find (fun y => f y =? f x) (l ++ [x]) = Some x.
Proof.
  intros H. induction l as [|y l IH]; simpl.
  - now rewrite String.eqb_refl.
  - destruct (String.eqb_spec (f y) (f x)) as [E|_].
    + exfalso. apply H. left. exact E.
    + apply IH. intros Hin. apply H. now right.
Qed.

Lemma find_snoc_other {X} (f : X -> string) (l : list X) (x : X) (k : string) :
  k <> f x ->
  find (fun y => f y =? k) (l ++ [x]) = find (fun y => f y =? k) l.
Proof.
  intros H. induction l as [|y l IH]; simpl.
  - destruct (String.eqb_spec (f x) k); [congruence | reflexivity].
  - now rewrite IH.
Qed.

Lemma find_eqb_present {X} (f : X -> string) (l : list X) (k : string) :
  In k (map f l) -> exists x, find (fun y => f y =? k) l = Some x /\ f x = k.
Proof.
  intros H. destruct (find (fun y => f y =? k) l) as [x|] eqn:E.
  - exists x. split; [reflexivity|]. now apply find_eqb_some in E.
  - now apply find_eqb_none in E.
Qed.

Lemma trim_not_blank (s : string) : trim s <> "" -> blank (Str s) = Val false.
Proof.
  intros H. unfold blank. simpl.
  destruct (String.eqb_spec s "") as [->|_]; [now destruct H|]. simpl.
  now destruct (String.eqb_spec (trim s) "").
Qed.


Section ReadBack.

Variable isValidUUID : string -> bool.


(** X10. POST /authors: a blank or missing name is answered 400 without a store
    call. A name that is not blank is stored trimmed under the generated id
    (when that id is new) and answered 201; the author can then be read
    back by that id, and every other id reads as before. *)
Theorem author_create_then_get (env : Env) (body name : value) (w : World) :
  prop body "name" = Val name ->
  let r := postAuthor env body w in
  (blank name = Val true ->
   r = (badRequest "Author name is required", w)) /\
  (forall s, name = Str s -> trim s <> "" ->
     ~ In (uuid env 0) (map author_id (authorTable (db w))) ->
     let a := mkAuthor (uuid env 0) (trim s) in
     fst r = send 201 (AuthorBody a) /\
     authorTable (db (snd r)) = (authorTable (db w) ++ [a])%list /\
     (isValidUUID (uuid env 0) = true ->
      fst (getAuthorById isValidUUID (uuid env 0) (snd r)) =
        send 200 (AuthorBody a)) /\
     (forall id, id <> uuid env 0 ->
                 getAuthor id (db (snd r)) = getAuthor id (db w))).
Proof.
  intros Hn r. subst r. unfold postAuthor. run_handler. rewrite Hn. simpl.
  split.
  - intros ->. reflexivity.
  - intros s -> Hs Hfresh. rewrite (trim_not_blank s Hs). simpl.
    unfold createAuthor. simpl.
    rewrite (existsb_eqb_absent author_id _ _ Hfresh). simpl.
    repeat split.
    + intros Hv. unfold getAuthorById. run_handler. rewrite Hv. simpl.
      unfold getAuthor, authorOf. simpl.
      change (uuid env 0) with (author_id (mkAuthor (uuid env 0) (trim s))) at 1.
      rewrite (find_snoc_new author_id); [reflexivity | exact Hfresh].
    + intros id Hid. unfold getAuthor, authorOf. simpl.
      now apply find_snoc_other.
Qed.

(** A reply 201 to POST /notes comes from a successful insert, after the
    checks and the author lookup. *)
Lemma postNote_201 (env : Env) (body : value) (w : World) :
  code (fst (postNote isValidUUID env body w)) = 201 ->
  exists title content aid tagsField names text nw d',
    prop body "title" = Val (Str title) /\
    prop body "content" = Val content /\
    prop body "authorId" = Val (Str aid) /\
    prop body "tags" = Val tagsField /\
    cleanTagsV (if defined tagsField then tagsField else Arr []) = Val names /\
    match content with
    | Undefined | Null => Val None
    | _ => (t <- trimOf content ;; Val (orNull t))%js
    end = Val text /\
    createNote env (trim title) text aid names (db w) = Val (nw, d') /\
    postNote isValidUUID env body w =
      (send 201 (NoteBody nw),
       mkWorld d' (calls w ++ [author_findUnique aid] ++ [note_create])).
Proof.
  unfold postNote. run_handler.
  destruct (prop body "title") as [title|]; simpl; [|discriminate].
  destruct (prop body "content") as [content|]; simpl; [|discriminate].
  destruct (prop body "authorId") as [authorId|]; simpl; [|discriminate].
  destruct (prop body "tags") as [tagsField|]; simpl; [|discriminate].
  set (tags := if defined tagsField then tagsField else Arr []).
  destruct (blank title) as [[|]|]; simpl; try discriminate.
  destruct (defined tags && negb (isArray tags)); simpl; [discriminate|].
  destruct (blank authorId) as [[|]|]; simpl; try discriminate.
  destruct authorId as [| |?|?|aid|?|?]; simpl; try discriminate.
  destruct (isValidUUID aid); simpl; [|discriminate].
  destruct (getAuthor aid (db w)); simpl; [|discriminate].
  destruct (cleanTagsV tags) as [names|] eqn:C; simpl; [|discriminate].
  destruct (trimOf title) as [trimmed|] eqn:T; simpl; [|discriminate].
  destruct (match content with
            | Undefined | Null => Val None
            | _ => (t <- trimOf content ;; Val (orNull t))%js
            end) as [text|] eqn:X; simpl; [|discriminate].
  destruct (createNote env trimmed text aid names (db w)) as [[nw d']|] eqn:K;
    simpl; [|discriminate].
  intros _. destruct title; simpl in T; try discriminate.
  inversion T; subst.
  exists s, content, aid, tagsField, names, text, nw, d'.
  rewrite <- app_assoc. repeat split; auto.
Qed.

(** The insert of a note with tags, on the tables: the new row is the last
    of [Note], it is joined to rows carrying exactly the given names and to
    its author, it can be read back by its id, and the tags of every other
    note are what they were. *)
Lemma createNote_tags (env : Env) (title : string) (content : option string)
  (aid : string) (names : list string) (d d' : Database) (nw : NoteWith) :
  constraints d ->
  NoDup names ->
  createNote env title content aid names d = Val (nw, d') ->
  note nw = mkNote (uuid env 0) title content aid (now env) (now env) /\
  noteTable d' = (noteTable d ++ [note nw])%list /\
  map tag_name (tags nw) = names /\
  (exists a, author nw = Some a /\ author_id a = aid) /\
  getNote (uuid env 0) d' = Some nw /\
  (forall other, other <> uuid env 0 -> tagsOf d' other = tagsOf d other).
Proof.
  intros [Ka Kn Kt Kl Ku Fa Fl Ft] Nn H.
  apply createNote_inv in H. simpl in H.
  destruct H as (Hfresh & Hauthor & ids & table' & C & -> & ->).
  destruct (connectOrCreate_spec _ _ _ _ _ _ C)
    as (created & E & _ & Hi & Hf & Hk & _).
  assert (Ni : NoDup ids) by (eapply connected_ids_NoDup; eauto).
  set (n := mkNote (uuid env 0) title content aid (now env) (now env)).
  assert (Hnone : forall l, In l (noteToTagTable d) -> A l <> uuid env 0).
  { intros l Hl Eq. apply Hfresh. rewrite <- Eq. now apply Fl. }
  assert (El : fold_left (connect (uuid env 0)) ids (noteToTagTable d) =
               (noteToTagTable d ++ map (mkNoteToTag (uuid env 0)) ids)%list).
  { apply connect_fold; [|assumption].
    intros x _ Hin. now apply (Hnone _ Hin). }
  assert (Hjoin : forall other,
             tagsOf (mkDatabase (authorTable d) (noteTable d ++ [n]) table'
                       (fold_left (connect (uuid env 0)) ids (noteToTagTable d)))
               other =
             if uuid env 0 =? other
             then flat_map (fun l => filter (fun t => tag_id t =? B l) table')
                    (map (mkNoteToTag (uuid env 0)) ids)
             else tagsOf d other).
  { intros other. unfold tagsOf. simpl.
    rewrite El, filter_app, filter_links_of, flat_map_app.
    destruct (String.eqb_spec (uuid env 0) other) as [<-|_].
    - rewrite (filter_none _ (noteToTagTable d)); [reflexivity|].
      intros l Hl. apply String.eqb_neq. now apply Hnone.
    - simpl. rewrite app_nil_r, E. apply join_extended; [|assumption].
      intros l Hl. apply filter_In in Hl. destruct Hl. auto. }
  repeat split.
  - unfold withRelations. simpl. rewrite Hjoin, String.eqb_refl.
    now apply connected_join; auto.
  - apply (find_eqb_present author_id) in Hauthor.
    destruct Hauthor as (a & Fa' & Ha). exists a. split; [|assumption].
    exact Fa'.
  - pose proof (find_snoc_new note_id (noteTable d) n Hfresh) as Hfind.
    unfold getNote. simpl in *. now rewrite Hfind.
  - intros other Ho. rewrite Hjoin.
    destruct (String.eqb_spec (uuid env 0) other); [congruence | reflexivity].
Qed.


End ReadBack.

(** ** Tags are reused, and the schema holds in every reachable state *)

Lemma connectOrCreate_names (env : Env) (names : list string) :
  NoDup names ->
  forall (k : nat) (table : list Tag) (ids : list string) (table' : list Tag),
    connectOrCreate env k names table = Val (ids, table') ->
    map tag_name table' =
    (map tag_name table ++
     filter (fun n => negb (existsb (String.eqb n) (map tag_name table)))
       names)%list.
Proof.
  induction 1 as [|name rest Hname N IH]; intros k table ids table' H;
    simpl in H.
  - inversion H; subst. simpl. now rewrite app_nil_r.
  - destruct (find (fun t => tag_name t =? name) table) as [t|] eqn:F.
    + destruct (connectOrCreate env k rest table) as [[ids0 table0]|e] eqn:C;
        simpl in H; [|discriminate].
      inversion H; subst. clear H.
      apply find_eqb_some in F. destruct F as [Ht <-].
      simpl.
      assert (E : existsb (String.eqb (tag_name t)) (map tag_name table) = true).
      { apply existsb_exists. exists (tag_name t).
        split; [now apply in_map | apply String.eqb_refl]. }
      rewrite E. simpl. eapply IH; eassumption.
    + destruct (existsb (fun t => tag_id t =? uuid env k) table) eqn:E;
        [discriminate|].
      destruct (connectOrCreate env (S k) rest (table ++ [mkTag (uuid env k) name]))
        as [[ids0 table0]|e] eqn:C; simpl in H; [|discriminate].
      inversion H; subst. clear H.
      apply find_eqb_none in F. simpl.
      assert (E' : existsb (String.eqb name) (map tag_name table) = false).
      { destruct (existsb (String.eqb name) (map tag_name table)) eqn:X;
          [|reflexivity].
        apply existsb_exists in X. destruct X as (x & Hx & Ex).
        apply String.eqb_eq in Ex. subst. contradiction. }
      rewrite E'. simpl. rewrite (IH _ _ _ _ C), map_app, <- app_assoc. simpl.
      do 2 f_equal. apply filter_ext_in. intros n Hn.
      rewrite existsb_app. simpl. rewrite orb_false_r.
      destruct (String.eqb_spec n name) as [->|_]; [contradiction|].
      now rewrite orb_false_r.
Qed.

Section Reuse.

Variable isValidUUID : string -> bool.

(** X12. A write with the tag list [T] adds rows to [Tag] for exactly the cleaned
    names that no row carried yet, in their order, after the rows that were
    there: a name that is stored already is reused, never stored twice. This
    holds for a successful PATCH and for a successful POST alike. *)
Theorem tags_created_only_when_new (env : Env) (body : value)
  (T : list string) (w : World) :
  prop body "tags" = Val (Arr (map Str T)) ->
  let expected :=
    (map tag_name (tagTable (db w)) ++
     filter (fun n => negb (existsb (String.eqb n)
                             (map tag_name (tagTable (db w)))))
       (cleanTags T))%list in
  (forall id,
     code (fst (patchNote isValidUUID env id body w)) = 200 ->
     map tag_name (tagTable (db (snd (patchNote isValidUUID env id body w))))
     = expected) /\
  (code (fst (postNote isValidUUID env body w)) = 201 ->
   map tag_name (tagTable (db (snd (postNote isValidUUID env body w))))
   = expected).
Proof.
  intros Hg expected. subst expected. split.
  - intros id H200.
    destruct (patchNote_200 isValidUUID env id body w H200)
      as (data & nw & d' & Bd & U & E).
    rewrite E. simpl.
    destruct (buildNoteUpdateData_inv _ _ Bd)
      as (title & content & tags & _ & _ & Hg' & _ & _ & Hd).
    rewrite Hg in Hg'. inversion Hg'; subst tags. simpl in Hd.
    destruct Hd as (T' & ET & Hd).
    apply updateNote_inv in U. destruct U as (_ & _ & _ & _ & _ & Et).
    rewrite Hd in Et. destruct Et as (ids & C & _).
    assert (EC : cleanTagsOf (map Str T') = cleanTagsOf (map Str T))
      by (inversion ET as [ET']; now rewrite ET').
    rewrite !cleanTagsOf_Str in EC. injection EC as EC'.
    rewrite EC' in C.
    eapply connectOrCreate_names; [apply cleanTags_NoDup | exact C].
  - intros H201.
    destruct (postNote_201 isValidUUID env body w H201)
      as (title & content & aid & tagsField & names & text & nw & d' &
          _ & _ & _ & Hg' & C & _ & Cr & E).
    rewrite E. simpl.
    rewrite Hg in Hg'. inversion Hg'; subst tagsField. simpl in C.
    rewrite cleanTagsOf_Str in C. inversion C; subst names.
    apply createNote_inv in Cr. simpl in Cr.
    destruct Cr as (_ & _ & ids & table' & CC & -> & _). simpl.
    eapply connectOrCreate_names; [apply cleanTags_NoDup | exact CC].
Qed.

(** X13. After any sequence of requests on the empty store, every key and every
    reference of the migration holds; in particular every note has its
    author, so the [author] of a returned note is never missing. *)
Theorem reachable_schema (reqs : list (Env * request)) :
  let d := run isValidUUID reqs emptyDatabase in
  constraints d /\
  (forall n, In n (noteTable d) ->
     exists a, author (withRelations d n) = Some a /\
               author_id a = note_authorId n) /\
  (forall nw, In nw (listNotes None d) -> author nw <> None).
Proof.
  intros d.
  assert (K : constraints d)
    by (apply run_constraints, emptyDatabase_constraints).
  assert (Ha : forall n, In n (noteTable d) ->
             exists a, author (withRelations d n) = Some a /\
                       author_id a = note_authorId n).
  { intros n Hn. simpl. unfold authorOf.
    apply find_eqb_present. now apply (Note_authorId_fkey d K). }
  split; [assumption|]. split; [assumption|].
  intros nw Hnw. unfold listNotes in Hnw. apply in_map_iff in Hnw.
  destruct Hnw as (n & <- & Hn).
  apply (Permutation_in _ (Permutation_sym (sortBy_Permutation _ _))) in Hn.
  apply filter_In in Hn. destruct Hn as [Hn _].
  destruct (Ha n Hn) as (a & -> & _). discriminate.
Qed.

End Reuse.

(** ** Listing *)

Lemma comma_lowerChar (c : ascii) :
  Ascii.eqb (lowerChar c) "," = Ascii.eqb c ",".
Proof. each_char c. Qed.

Lemma split_toLowerCase (s : string) :
  split "," (toLowerCase s) = map toLowerCase (split "," s).
Proof.
  induction s as [|c s IH]; simpl; [reflexivity|].
  rewrite comma_lowerChar, IH.
  destruct (Ascii.eqb c ","); simpl; [reflexivity|].
  destruct (split "," s); reflexivity.
Qed.

Lemma filter_names_toLowerCase (q : string) :
  map (fun tag => trim (toLowerCase tag)) (split "," (toLowerCase q)) =
  map (fun tag => trim (toLowerCase tag)) (split "," q).
Proof.
  rewrite split_toLowerCase, map_map. apply map_ext.
  intros s. now rewrite toLowerCase_idempotent.
Qed.

(** X14. The tag filter of the list endpoint does not see case: a query string
    and its lowercase form get the same reply. *)
Theorem list_filter_case_insensitive (q : string) (w : World) :
  getNotes (Str (toLowerCase q)) w = getNotes (Str q) w.
Proof.
  unfold getNotes, tryCatch, bindM, lift.
  assert (Ht : truthy (Str (toLowerCase q)) = truthy (Str q))
    by (destruct q; reflexivity).
  rewrite Ht. destruct (truthy (Str q)); [|reflexivity].
  unfold splitOf, JS.bind. cbv beta iota.
  now rewrite filter_names_toLowerCase.
Qed.

(** ** When the writes succeed *)

Lemma connectOrCreate_succeeds (env : Env) (names : list string) :
  forall (k : nat) (table : list Tag),
    (forall j, k <= j -> ~ In (uuid env j) (map tag_id table)) ->
    (forall i j, k <= i -> k <= j -> uuid env i = uuid env j -> i = j) ->
    exists r, connectOrCreate env k names table = Val r.
Proof.
  induction names as [|name rest IH]; intros k table Hfresh Hinj; simpl.
  - eauto.
  - destruct (find (fun t => tag_name t =? name) table) as [t|].
    + destruct (IH k table Hfresh Hinj) as (r & ->). simpl. eauto.
    + rewrite (existsb_eqb_absent tag_id table (uuid env k) (Hfresh k (le_n k))).
      destruct (IH (S k) (table ++ [mkTag (uuid env k) name])%list) as (r & ->).
      * intros j Hj. rewrite map_app, in_app_iff. simpl.
        intros [H|[H|[]]].
        -- apply (Hfresh j); [lia | exact H].
        -- apply Hinj in H; lia.
      * intros i j Hi Hj. apply Hinj; lia.
      * simpl. eauto.
Qed.

Section Success.

Variable isValidUUID : string -> bool.

(** X15. POST /notes is answered 201 whenever the body is an object with a title
    that is not blank, tags that are absent or an array of strings, content
    that is absent, null or a string, and an authorId that is a valid UUID
    of a stored author, provided the ids generated for the request are new:
    the note id is not in [Note], and the tag ids are distinct and not in
    [Tag]. *)
Theorem note_create_succeeds (env : Env) (body content tagsField : value)
  (title aid : string) (a : Author) (w : World) :
  prop body "title" = Val (Str title) -> trim title <> "" ->
  prop body "authorId" = Val (Str aid) -> trim aid <> "" ->
  isValidUUID aid = true ->
  getAuthor aid (db w) = Some a ->
  prop body "content" = Val content ->
  (content = Undefined \/ content = Null \/ exists c, content = Str c) ->
  prop body "tags" = Val tagsField ->
  (tagsField = Undefined \/ exists T, tagsField = Arr (map Str T)) ->
  ~ In (uuid env 0) (map note_id (noteTable (db w))) ->
  (forall j, 1 <= j -> ~ In (uuid env j) (map tag_id (tagTable (db w)))) ->
  (forall i j, 1 <= i -> 1 <= j -> uuid env i = uuid env j -> i = j) ->
  code (fst (postNote isValidUUID env body w)) = 201.
Proof.
  intros Ht Hnt Ha Hna Hv Hau Hc Hcontent Hg Htags Hnote Hfresh Hinj.
  unfold postNote. run_handler. rewrite Ht, Hc, Ha, Hg. simpl.
  rewrite (trim_not_blank title Hnt). simpl.
  set (tags := if defined tagsField then tagsField else Arr []).
  assert (Hclean : exists names, isArray tags = true /\ defined tags = true /\
                                 cleanTagsV tags = Val names).
  { subst tags. destruct Htags as [->|(T & ->)]; simpl.
    - exists []. auto.
    - exists (cleanTags T). rewrite cleanTagsOf_Str. auto. }
  destruct Hclean as (names & Hi & Hd & Hcl).
  rewrite Hi, Hd. simpl. rewrite (trim_not_blank aid Hna). simpl.
  rewrite Hv. simpl. rewrite Hau. simpl. rewrite Hcl. simpl.
  assert (Htext : exists text,
             match content with
             | Undefined | Null => Val None
             | _ => (t <- trimOf content ;; Val (orNull t))%js
             end = Val text).
  { destruct Hcontent as [->|[->|(c & ->)]]; simpl; eauto. }
  destruct Htext as (text & ->). simpl.
  unfold createNote. simpl.
  rewrite (existsb_eqb_absent note_id _ _ Hnote).
  unfold getAuthor in Hau. rewrite Hau.
  destruct (connectOrCreate_succeeds env names 1 (tagTable (db w)) Hfresh Hinj)
    as (r & ->).
  reflexivity.
Qed.

(** X16. PATCH is answered 200 whenever the id is a valid UUID of a stored note
    and the body has at least one key, a title that is absent or not blank,
    content that is absent or a string, and tags that are absent or an
    array of strings, provided the tag ids generated for the request are
    distinct and not in [Tag]. *)
Theorem patch_succeeds (env : Env) (id : string)
  (body title content tagsField : value) (k : nat) (nw : NoteWith)
  (w : World) :
  isValidUUID id = true ->
  getNote id (db w) = Some nw ->
  keysLength body = Val (S k) ->
  prop body "title" = Val title ->
  (title = Undefined \/ exists t, title = Str t /\ trim t <> "") ->
  prop body "content" = Val content ->
  (content = Undefined \/ exists c, content = Str c) ->
  prop body "tags" = Val tagsField ->
  (tagsField = Undefined \/ exists T, tagsField = Arr (map Str T)) ->
  (forall j, ~ In (uuid env j) (map tag_id (tagTable (db w)))) ->
  (forall i j, uuid env i = uuid env j -> i = j) ->
  code (fst (patchNote isValidUUID env id body w)) = 200.
Proof.
  intros Hv Hn Hk Ht Htitle Hc Hcontent Hg Htags Hfresh Hinj.
  unfold patchNote. run_handler. rewrite Hv. simpl.
  unfold validateNotePatchRequest, buildNoteUpdateData.
  rewrite Hk, Ht, Hc, Hg. simpl.
  assert (E1 : (if defined title then blank title else Val false) = Val false).
  { destruct Htitle as [->|(t & -> & Hne)]; simpl;
      [reflexivity | now apply trim_not_blank]. }
  rewrite E1. simpl.
  assert (E2 : defined tagsField && negb (isArray tagsField) = false).
  { destruct Htags as [->|(T & ->)]; reflexivity. }
  rewrite E2. simpl.
  assert (E3 : exists dt, (if defined title
                           then (t <- trimOf title ;; Val (Some t))%js
                           else Val None) = Val dt).
  { destruct Htitle as [->|(t & -> & _)]; simpl; eauto. }
  destruct E3 as (dt & ->). simpl.
  assert (E4 : exists dc, (if defined content
                           then (t <- trimOf content ;; Val (Some (orNull t)))%js
                           else Val None) = Val dc).
  { destruct Hcontent as [->|(c & ->)]; simpl; eauto. }
  destruct E4 as (dc & ->). simpl.
  assert (E5 : exists dg, (if defined tagsField
                           then (cleanedTags <- cleanTagsV tagsField ;;
                                 Val (Some cleanedTags))%js
                           else Val None) = Val dg).
  { destruct Htags as [->|(T & ->)]; simpl; [eauto|].
    rewrite cleanTagsOf_Str. simpl. eauto. }
  destruct E5 as (dg & ->). simpl.
  unfold updateNote. unfold getNote in Hn.
  destruct (find (fun n => note_id n =? id) (noteTable (db w))) as [n|];
    [|discriminate].
  simpl. destruct dg as [names|]; [|reflexivity].
  destruct (connectOrCreate_succeeds env names 0 (tagTable (db w)))
    as (r & ->); [auto | auto |].
  reflexivity.
Qed.

End Success.

(** ** Filtering by tag, end to end *)

Lemma includes_comma_cons (c : ascii) (s : string) :
  includes "," (String c s) = Ascii.eqb c "," || includes "," s.
Proof.
  change (includes "," (String c s)) with
    ((Ascii.eqb "," c && startsWith "" s) || includes "," s).
  rewrite Ascii.eqb_sym. now destruct s; rewrite andb_true_r.
Qed.

Lemma split_no_comma (s : string) :
  includes "," s = false -> split "," s = [s].
Proof.
  induction s as [|c s IH]; [reflexivity|].
  rewrite includes_comma_cons, orb_false_iff. intros [Hc Hs].
  simpl. now rewrite Hc, (IH Hs).
Qed.

Lemma split_pieces_no_comma (s : string) :
  forall p, In p (split "," s) -> includes "," p = false.
Proof.
  induction s as [|c s IH]; simpl.
  - intros p [<-|[]]. reflexivity.
  - destruct (Ascii.eqb c ",") eqn:E.
    + intros p [<-|H]; [reflexivity | now apply IH].
    + destruct (split "," s) as [|piece pieces] eqn:S.
      * intros p [<-|[]]. now rewrite includes_comma_cons, E.
      * intros p [<-|H].
        -- rewrite includes_comma_cons, E. apply IH. now left.
        -- apply IH. now right.
Qed.

Lemma includes_comma_toLowerCase (s : string) :
  includes "," (toLowerCase s) = includes "," s.
Proof.
  induction s as [|c s IH]; [reflexivity|].
  change (toLowerCase (String c s)) with (String (lowerChar c) (toLowerCase s)).
  now rewrite !includes_comma_cons, IH, comma_lowerChar.
Qed.

Lemma includes_comma_trimStart (s : string) :
  includes "," s = false -> includes "," (trimStart s) = false.
Proof.
  induction s as [|c s IH]; [reflexivity|].
  rewrite includes_comma_cons, orb_false_iff. intros [Hc Hs].
  simpl. destruct (isWhiteSpace c); [now apply IH|].
  now rewrite includes_comma_cons, Hc, Hs.
Qed.

Lemma includes_comma_trimEnd (s : string) :
  includes "," s = false -> includes "," (trimEnd s) = false.
Proof.
  induction s as [|c s IH]; [reflexivity|].
  rewrite includes_comma_cons, orb_false_iff. intros [Hc Hs].
  specialize (IH Hs). simpl.
  destruct (trimEnd s) as [|a k].
  - destruct (isWhiteSpace c); [reflexivity|].
    now rewrite includes_comma_cons, Hc.
  - now rewrite includes_comma_cons, Hc, IH.
Qed.

Lemma filter_names_no_comma (q name : string) :
  In name (map (fun tag => trim (toLowerCase tag)) (split "," q)) ->
  includes "," name = false.
Proof.
  rewrite in_map_iff. intros (p & <- & Hp).
  apply includes_comma_trimEnd, includes_comma_trimStart.
  rewrite includes_comma_toLowerCase. now apply (split_pieces_no_comma q).
Qed.

Lemma listNotes_In (cond : option (list string)) (d : Database) (n : Note) :
  In (withRelations d n) (listNotes cond d) <->
  In n (noteTable d) /\ matchesWhere d cond n = true.
Proof.
  unfold listNotes. rewrite in_map_iff. split.
  - intros (m & E & Hm).
    assert (m = n) by (apply (f_equal note) in E; exact E). subst m.
    apply (Permutation_in _ (Permutation_sym (sortBy_Permutation _ _))) in Hm.
    now apply filter_In in Hm.
  - intros H. exists n. split; [reflexivity|].
    apply (Permutation_in _ (sortBy_Permutation _ _)).
    now apply filter_In.
Qed.

(** X17. The filter is split at commas before anything else, so none of its
    names holds a comma: a note all of whose tags hold a comma (such names
    pass the cleaner and are stored) is in no filtered list, whatever the
    query. *)
Theorem comma_tag_never_matches (q : string) (n : Note) (w : World) :
  q <> "" ->
  (forall t, In t (tagsOf (db w) (note_id n)) ->
             includes "," (tag_name t) = true) ->
  exists notes,
    fst (getNotes (Str q) w) = send 200 (NotesBody notes) /\
    ~ In (withRelations (db w) n) notes.
Proof.
  intros Hq Hcomma. unfold getNotes. run_handler.
  destruct (String.eqb_spec q "") as [|_]; [contradiction|]. simpl.
  eexists. split; [reflexivity|].
  intros H. apply listNotes_In in H. destruct H as [_ H].
  apply matchesWhere_hasTagIn in H. destruct H as (t & Ht & Hname).
  apply filter_names_no_comma in Hname.
  rewrite (Hcomma t Ht) in Hname. discriminate.
Qed.

Section EndToEnd.

Variable isValidUUID : string -> bool.

(** X18. A note created with tags is found through each of them: after a POST
    answered 201, on tables that satisfy the schema, listing with a filter
    that is any one of the note's cleaned tag names (one without a comma)
    returns the created note as the POST replied it. *)
Theorem created_note_is_listed (env : Env) (body : value) (T : list string)
  (t : string) (w : World) :
  constraints (db w) ->
  prop body "tags" = Val (Arr (map Str T)) ->
  In t (cleanTags T) ->
  includes "," t = false ->
  let r := postNote isValidUUID env body w in
  code (fst r) = 201 ->
  exists nw notes,
    sent (fst r) = NoteBody nw /\
    fst (getNotes (Str t) (snd r)) = send 200 (NotesBody notes) /\
    In nw notes.
Proof.
  intros K Hg Ht Hc r H201.
  destruct (postNote_201 isValidUUID env body w H201)
    as (title & content & aid & tagsField & names & text & nw & d' &
        _ & _ & _ & Hg' & C & _ & Cr & E).
  subst r. rewrite E. simpl.
  rewrite Hg in Hg'. inversion Hg'; subst tagsField. simpl in C.
  rewrite cleanTagsOf_Str in C. inversion C; subst names.
  destruct (createNote_tags env _ _ _ _ _ _ _ K (cleanTags_NoDup T) Cr)
    as (_ & Hrows & Hnames & _ & Hget & _).
  unfold getNote in Hget.
  destruct (find (fun n => note_id n =? uuid env 0) (noteTable d'))
    as [n|] eqn:F; [|discriminate].
  simpl in Hget. inversion Hget as [Hnw]. clear Hget.
  apply find_some in F. destruct F as [Hin _].
  destruct (cleanTags_normalForm T t Ht) as (Hl & Htr & Hne).
  exists (withRelations d' n). unfold getNotes. run_handler.
  destruct (String.eqb_spec t "") as [|_]; [contradiction|]. simpl.
  eexists. split; [reflexivity|]. split; [reflexivity|].
  apply listNotes_In. split; [assumption|].
  apply matchesWhere_hasTagIn.
  rewrite (split_no_comma t Hc). simpl. rewrite Hl, Htr.
  rewrite <- Hnames, <- Hnw in Ht. simpl in Ht.
  apply in_map_iff in Ht. destruct Ht as (tag & Etag & Htag).
  exists tag. split; [assumption|]. left. now rewrite Etag.
Qed.

End EndToEnd.

(** ** The further properties, run on the example store *)

Lemma unary_injective (i j : nat) : unary i = unary j -> i = j.
Proof.
  revert j. induction i as [|i IH]; intros [|j] H; simpl in H;
    try discriminate; [reflexivity|].
  inversion H. f_equal. now apply IH.
Qed.

Lemma unaryEnv_injective (i j : nat) :
  uuid unaryEnv i = uuid unaryEnv j -> i = j.
Proof. simpl. intros H. inversion H. now apply unary_injective. Qed.

Lemma unaryEnv_new (j : nat) :
  ~ In (uuid unaryEnv j) (map tag_id (tagTable exampleDatabase)) /\
  ~ In (uuid unaryEnv j) (map note_id (noteTable exampleDatabase)).
Proof. split; simpl; intuition discriminate. Qed.

Lemma missing_body_is_500_witness :
  postNote uuidValidate (exampleEnv 4) Undefined exampleWorld =
    (internalServerError "Failed to create note", exampleWorld).
Proof.
  exact (proj1 (proj2 (missing_body_is_500 uuidValidate (exampleEnv 4) noteId
                         Undefined exampleWorld (or_introl eq_refl)))).
Defined.

Lemma patch_field_validation_witness :
  patchNote uuidValidate (exampleEnv 4) noteId
    (Obj [("title", Str "  "); ("tags", Str "x")]) exampleWorld =
    (badRequest "Title cannot be empty", exampleWorld).
Proof.
  exact (proj1 (patch_field_validation uuidValidate (exampleEnv 4) noteId
                  (Obj [("title", Str "  "); ("tags", Str "x")])
                  (Str "  ") (Str "x") 1 exampleWorld
                  eq_refl eq_refl eq_refl eq_refl) eq_refl eq_refl).
Defined.

Lemma patch_unknown_note_is_404_witness :
  patchNote uuidValidate (exampleEnv 4) strangerId
    (Obj [("title", Str "New")]) exampleWorld =
    (notFound "Note not found",
     mkWorld exampleDatabase [note_update strangerId]).
Proof.
  exact (patch_unknown_note_is_404 uuidValidate (exampleEnv 4) strangerId
           (Obj [("title", Str "New")])
           (mkNoteUpdateData (Some "New") None None) exampleWorld
           eq_refl eq_refl eq_refl eq_refl).
Defined.



Lemma author_create_then_get_witness :
  fst (postAuthor (mkEnv 9 (fun _ => strangerId))
         (Obj [("name", Str " Grace ")]) exampleWorld)
  = send 201 (AuthorBody (mkAuthor strangerId "Grace")).
Proof.
  refine (proj1 (proj2 (author_create_then_get uuidValidate
                          (mkEnv 9 (fun _ => strangerId))
                          (Obj [("name", Str " Grace ")]) (Str " Grace ")
                          exampleWorld eq_refl)
                   " Grace " eq_refl _ _)).
  - discriminate.
  - simpl. intuition discriminate.
Defined.


Lemma tags_created_only_when_new_witness :
  map tag_name
    (tagTable
       (db (snd (patchNote uuidValidate unaryEnv noteId
                   (Obj [("tags", Arr [Str "Vitest"; Str "New"])])
                   exampleWorld))))
  = ["testing"; "vitest"; "fastify"; "other"; "new"].
Proof.
  exact (proj1 (tags_created_only_when_new uuidValidate unaryEnv
                  (Obj [("tags", Arr [Str "Vitest"; Str "New"])])
                  ["Vitest"; "New"] exampleWorld eq_refl)
           noteId eq_refl).
Defined.

Lemma note_create_succeeds_witness :
  code (fst (postNote uuidValidate unaryEnv
               (Obj [("title", Str "T"); ("authorId", Str adaId);
                     ("tags", Arr [Str "a"; Str "b"])])
               exampleWorld)) = 201.
Proof.
  refine (note_create_succeeds uuidValidate unaryEnv
            (Obj [("title", Str "T"); ("authorId", Str adaId);
                  ("tags", Arr [Str "a"; Str "b"])])
            Undefined (Arr [Str "a"; Str "b"]) "T" adaId
            (mkAuthor adaId "Test Author") exampleWorld
            eq_refl _ eq_refl _ eq_refl eq_refl eq_refl (or_introl eq_refl)
            eq_refl (or_intror (ex_intro _ ["a"; "b"] eq_refl)) _ _ _).
  - discriminate.
  - discriminate.
  - apply (unaryEnv_new 0).
  - intros j _. apply (unaryEnv_new j).
  - intros i j _ _. apply unaryEnv_injective.
Defined.

Lemma patch_succeeds_witness :
  code (fst (patchNote uuidValidate unaryEnv noteId
               (Obj [("content", Str " "); ("tags", Arr [Str "a"])])
               exampleWorld)) = 200.
Proof.
  refine (patch_succeeds uuidValidate unaryEnv noteId
            (Obj [("content", Str " "); ("tags", Arr [Str "a"])])
            Undefined (Str " ") (Arr [Str "a"]) 1 _ exampleWorld
            eq_refl eq_refl eq_refl eq_refl (or_introl eq_refl)
            eq_refl (or_intror (ex_intro _ " " eq_refl))
            eq_refl (or_intror (ex_intro _ ["a"] eq_refl)) _ _).
  - intros j. apply (unaryEnv_new j).
  - apply unaryEnv_injective.
Defined.

Lemma comma_tag_never_matches_witness :
  exists notes,
    fst (getNotes (Str "a,b") commaWorld) = send 200 (NotesBody notes) /\
    map (fun nw => note_title (note nw)) notes = [].
Proof.
  destruct (comma_tag_never_matches "a,b"
              (mkNote "row-4-0" "Comma" None adaId 4 4) commaWorld)
    as (notes & H & _).
  - discriminate.
  - simpl. intros t [<-|[]]. reflexivity.
  - exists notes. split; [exact H|].
    vm_compute in H. inversion H. reflexivity.
Defined.

Lemma created_note_is_listed_witness :
  exists nw notes,
    sent (fst (postNote uuidValidate unaryEnv
                 (Obj [("title", Str "T"); ("authorId", Str adaId);
                       ("tags", Arr [Str " Rocq "])])
                 exampleWorld)) = NoteBody nw /\
    fst (getNotes (Str "rocq")
           (snd (postNote uuidValidate unaryEnv
                   (Obj [("title", Str "T"); ("authorId", Str adaId);
                         ("tags", Arr [Str " Rocq "])])
                   exampleWorld))) = send 200 (NotesBody notes) /\
    In nw notes.
Proof.
  refine (created_note_is_listed uuidValidate unaryEnv
            (Obj [("title", Str "T"); ("authorId", Str adaId);
                  ("tags", Arr [Str " Rocq "])])
            [" Rocq "] "rocq" exampleWorld exampleDatabase_constraints
            eq_refl _ eq_refl eq_refl).
  simpl. auto.
Defined.
